(** * ego: lifecycle orchestration (ego_function.go)

    A shallow embedding of the start-up sequencer, the job runner, the signal
    handler, the fork/reload protocol and the clean-up hook runners of
    [ego_function.go], with the properties of its specification. *)

From Stdlib Require Import ZArith Lia Ascii String.
From stdpp Require Import base list strings gmap pretty.

Local Open Scope string_scope.
Local Open Scope list_scope.
Local Open Scope Z_scope.

(** ** Go values *)

(** A Go [error] value that is not nil.  [errorString] is what [errors.New]
    and [fmt.Errorf] (without [%w]) build; the two context sentinels and
    [EINVAL] are the library errors this file meets. *)
Inductive error : Type :=
| errorString (s : string)
| DeadlineExceeded
| Canceled
| EINVAL.

#[global] Instance error_eq_dec : EqDecision error.
Proof. solve_decision. Defined.

(** Whether the byte occurs in the string. *)
Fixpoint has_byte (c : ascii) (s : string) : bool :=
  match s with
  | "" => false
  | String x s' => bool_decide (x = c) || has_byte c s'
  end.

(** ** package fmt: formatting a format string that has no operands *)

Section Fmt.

Definition byte_of (c : ascii) : Z := Z.of_N (N_of_ascii c).

Definition is_digit (c : ascii) : bool :=
  (48 <=? byte_of c) && (byte_of c <=? 57).

Definition is_flag (c : ascii) : bool :=
  bool_decide (c = "#"%char) || bool_decide (c = "0"%char)
  || bool_decide (c = "+"%char) || bool_decide (c = "-"%char)
  || bool_decide (c = " "%char).

Definition tooLarge (x : Z) : bool := (1000000 <? x) || (x <? -1000000).

(** [parsenum s start end] on the window [s[start:end]]: the number read,
    whether one was read, and what is left of the window.  On overflow, and
    on an empty window, Go returns [end] as the new index: nothing is left. *)
Fixpoint parsenum_go (num : Z) (isnum : bool) (w : string) : Z * bool * string :=
  match w with
  | String c w' =>
      if is_digit c then
        if tooLarge num then (0, false, "")
        else parsenum_go (num * 10 + (byte_of c - 48)) true w'
      else (num, isnum, w)
  | "" => (num, isnum, "")
  end.

Definition parsenum (w : string) : Z * bool * string := parsenum_go 0 false w.

(** Splits at the first closing bracket. *)
Fixpoint find_bracket (s : string) : option (string * string) :=
  match s with
  | "" => None
  | String c s' =>
      if bool_decide (c = "]"%char) then Some ("", s')
      else match find_bracket s' with
           | Some (inner, rest) => Some (String c inner, rest)
           | None => None
           end
  end.

(** [parseArgNumber], on what follows the opening bracket: whether an index
    was read, and the format after the bytes it consumed. *)
Definition parseArgNumber (t : string) : bool * string :=
  if (String.length t <? 2)%nat then (false, t)
  else match find_bracket t with
       | Some (inner, rest) =>
           let '(_, ok, remain) := parsenum inner in
           (ok && bool_decide (remain = ""), rest)
       | None => (false, t)
       end.

(** The format after its first byte, when that byte is [c]. *)
Definition strip (c : ascii) (s : string) : option string :=
  match s with
  | String x t => if bool_decide (x = c) then Some t else None
  | "" => None
  end.

(** [argNumber] with no operands: an index can never be in range, so a
    bracket always clears [goodArgNum]. *)
Definition argNumber (good : bool) (s : string) : bool * string * bool :=
  match strip "["%char s with
  | Some t => let '(ok, rest) := parseArgNumber t in (false, rest, ok)
  | None => (good, s, false)
  end.

Fixpoint skip_flags (s : string) : string :=
  match s with
  | String c s' => if is_flag c then skip_flags s' else s
  | "" => ""
  end.

Definition in_range (lo hi : Z) (c : ascii) : bool :=
  (lo <=? byte_of c) && (byte_of c <=? hi).

Definition RuneError : string :=
  String (ascii_of_N 239) (String (ascii_of_N 191) (String (ascii_of_N 189) "")).

(** [utf8.DecodeRuneInString] followed by [writeRune]: the bytes written for
    the verb and the format after it. *)
Definition decode_verb (c : ascii) (s : string) : string * string :=
  let b := byte_of c in
  if b <? 128 then (String c "", s)
  else
    let two := (194 <=? b) && (b <=? 223) in
    let three := (224 <=? b) && (b <=? 239) in
    let four := (240 <=? b) && (b <=? 244) in
    let lo1 := if b =? 224 then 160 else if b =? 240 then 144 else 128 in
    let hi1 := if b =? 237 then 159 else if b =? 244 then 143 else 191 in
    if two then
      match s with
      | String c1 s1 =>
          if in_range lo1 hi1 c1 then (String c (String c1 ""), s1)
          else (RuneError, s)
      | _ => (RuneError, s)
      end
    else if three then
      match s with
      | String c1 (String c2 s2) =>
          if in_range lo1 hi1 c1 && in_range 128 191 c2
          then (String c (String c1 (String c2 "")), s2)
          else (RuneError, s)
      | _ => (RuneError, s)
      end
    else if four then
      match s with
      | String c1 (String c2 (String c3 s3)) =>
          if in_range lo1 hi1 c1 && in_range 128 191 c2 && in_range 128 191 c3
          then (String c (String c1 (String c2 (String c3 ""))), s3)
          else (RuneError, s)
      | _ => (RuneError, s)
      end
    else (RuneError, s).

(** The width of a verb: what is written, [goodArgNum], the format that is
    left and [afterIndex]. *)
Definition verb_width (good after : bool) (s : string)
  : string * bool * string * bool :=
  match strip "*"%char s with
  | Some t => ("%!(BADWIDTH)", good, t, false)
  | None => let '(_, widPresent, t) := parsenum s in
            ("", if after && widPresent then false else good, t, after)
  end.

(** The precision of a verb, when a dot comes next. *)
Definition verb_precision (good after : bool) (s : string)
  : string * bool * string * bool :=
  match strip "."%char s with
  | Some t =>
      let '(good', t', after') := argNumber (if after then false else good) t in
      match strip "*"%char t' with
      | Some t'' => ("%!(BADPREC)", good', t'', false)
      | None => let '(_, _, t'') := parsenum t' in ("", good', t'', after')
      end
  | None => ("", good, s, after)
  end.

(** One verb of [doPrintf], entered after the percent sign: the bytes
    written, the format that is left, and whether the loop is left
    ([break] on a missing verb). *)
Definition doVerb (s : string) : string * string * bool :=
  let '(good1, s2, after1) := argNumber true (skip_flags s) in
  let '(out_w, good2, s3, after2) := verb_width good1 after1 s2 in
  let '(out_p, good3, s4, after3) := verb_precision good2 after2 s3 in
  let '(good4, s5, _) :=
    if after3 then (good3, s4, after3) else argNumber good3 s4 in
  match s5 with
  | "" => (out_w +:+ out_p +:+ "%!(NOVERB)", "", true)
  | String c t =>
      let '(verb, rest) := decode_verb c t in
      let out :=
        if bool_decide (c = "%"%char) then "%"
        else if negb good4 then "%!" +:+ verb +:+ "(BADINDEX)"
        else "%!" +:+ verb +:+ "(MISSING)" in
      (out_w +:+ out_p +:+ out, rest, false)
  end.

(** [doPrintf format []]: text is copied up to each percent sign. *)
Fixpoint doPrintf (fuel : nat) (format : string) : string :=
  match fuel with
  | O => ""
  | S fuel' =>
      match format with
      | "" => ""
      | String c rest =>
          if bool_decide (c = "%"%char) then
            let '(out, rest', stop) := doVerb rest in
            out +:+ (if stop then "" else doPrintf fuel' rest')
          else String c (doPrintf fuel' rest)
      end
  end.

(** [fmt.Errorf(format)]: no operand, so no error is wrapped and the result
    is [errors.New] of the formatted text. *)
Definition fmt_Errorf (format : string) : error :=
  errorString (doPrintf (String.length format) format).

End Fmt.

(** ** Collaborators: logger, servers, registry, jobs *)

Inductive Level : Type := InfoLevel | ErrorLevel | PanicLevel.

Inductive Field : Type :=
| FieldComponent (s : string)
| FieldComponentName (s : string)
| FieldErr (e : option error)
| FieldAddr (s : string)
| FieldAny (k v : string).

Record LogEntry : Type := mkLog {
  level : Level;
  message : string;
  fields : list Field }.

(** What a call of a blocking [Start] does: it returns an error value (nil is
    [None]) or panics. *)
Inductive Outcome : Type :=
| Returns (err : option error)
| Panics (v : string).

Record ServiceInfo : Type := { Label : string }.

(** The calls the orchestrator makes on its collaborators, as they are seen
    from outside. *)
Inductive Event : Type :=
| EvPrepare (name : string)
| EvInit (name : string)
| EvStart (name : string) (out : Outcome)
| EvHealth (name : string) (ready : bool)
| EvRegister (info : ServiceInfo) (err : option error)
| EvUnregister (info : ServiceInfo)
| EvJob (name : string) (err : option error)
| EvLog (entry : LogEntry).

Definition Trace : Type := list Event.

(** interface [Server]: the results of its methods. *)
Record Server : Type := {
  Name : string;
  PackageName : string;
  Info : ServiceInfo;
  Init : option error;
  Start : Outcome }.

(** interface [OrderServer]: a [Server] with [Prepare] and [Health];
    [Health k] is the answer to the probe that follows [k] earlier probes. *)
Record OrderServer : Type := {
  order_server :> Server;
  Prepare : option error;
  Health : nat -> bool }.

Record os_File : Type := { file_Name : string; file_Fd : Z }.

(** A [net.Listener]: a [*net.TCPListener], whose [File] gives a duplicate
    descriptor or fails, or a listener of another dynamic type. *)
Inductive net_Listener : Type :=
| TCPListener (file : os_File + error)
| OtherListener.

Record ReloadServer : Type := {
  reload_server :> Server;
  Listener : net_Listener }.

Record Registerer : Type := {
  RegisterService : ServiceInfo -> option error;
  UnregisterService : ServiceInfo -> option error }.

Record Job : Type := {
  job_Name : string;
  job_Start : option error }.

(** Modelled from the spec: package internal/retry is not among the sources.
    The retry policy is bounded; [retry_rounds] is the number of times
    [Continue] answers true under this context before it answers false. *)
Record context_Context : Type := { retry_rounds : nat }.

(** The fields of [Ego] that the functions below read.  [jobs] is ranged
    over and measured only, and the jobs run concurrently: the order of the
    list does not matter. *)
Record Ego : Type := {
  servers : list Server;
  reloadServers : list ReloadServer;
  orderServers : list OrderServer;
  jobs : list Job;
  registerer : Registerer }.

(** ** The supervisor group and the state the start-up code runs in *)

(** A [func() error] handed to a goroutine: it extends the trace of calls. *)
Definition Task : Type := Trace -> Outcome * Trace.

(** [events]: the calls that have happened before the point the calling
    goroutine has reached, its own and those of the goroutines it has waited
    for; [cycle]: the run units handed to [e.cycle.Run], oldest first. *)
Record World : Type := mkWorld {
  events : Trace;
  cycle : list Task }.

Definition M (A : Type) : Type := World -> A * World.

Definition ret {A} (a : A) : M A := fun w => (a, w).
Definition bind {A B} (m : M A) (k : A -> M B) : M B :=
  fun w => let '(a, w') := m w in k a w'.

Declare Scope ego_scope.
Delimit Scope ego_scope with ego.
Notation "x <- c ;; k" := (bind c (fun x => k))
  (at level 100, c at next level, right associativity) : ego_scope.
Notation "c ;; k" := (bind c (fun _ => k))
  (at level 100, right associativity) : ego_scope.
Local Open Scope ego_scope.

Definition emit (ev : Event) : M unit :=
  fun w => (tt, mkWorld (events w ++ [ev]) (cycle w)).

(** Modelled from the spec: the supervisor group ([e.cycle]) is not among the
    sources.  [Run] accepts a task and runs it on an execution unit of its
    own; the caller goes on at once. *)
Definition cycle_Run (fn : Task) : M unit :=
  fun w => (tt, mkWorld (events w) (cycle w ++ [fn])).

Definition logger_Error (msg : string) (fs : list Field) : Event :=
  EvLog (mkLog ErrorLevel msg fs).
Definition logger_Info (msg : string) (fs : list Field) : Event :=
  EvLog (mkLog InfoLevel msg fs).

(** ** startServers, startReloadServers, startOrderServers *)

Section Startup.

Variable e : Ego.

(** The body shared by the three run units, from [RegisterService] on: the
    two deferred calls run when [Start] returns and also when it panics, the
    one deferred last first.  The deferred log call took its operands when
    it was deferred: its error field is the one of registration. *)
Definition registered_run (start_msg stop_msg : string) (s : Server) : Task :=
  fun tr =>
    let err := RegisterService (registerer e) (Info s) in
    let tr := tr ++ [EvRegister (Info s) err] in
    let tr :=
      match err with
      | Some _ =>
          tr ++ [logger_Error "register service err"
                   [FieldComponent (PackageName s); FieldComponentName (Name s);
                    FieldErr err]]
      | None => tr
      end in
    let tr := tr ++ [logger_Info start_msg
                       [FieldComponent (PackageName s); FieldComponentName (Name s);
                        FieldAddr (Label (Info s))]] in
    let out := Start s in
    let tr := tr ++ [EvStart (Name s) out] in
    let tr := tr ++ [logger_Info stop_msg
                       [FieldComponent (PackageName s); FieldComponentName (Name s);
                        FieldErr err; FieldAddr (Label (Info s))]] in
    let tr := tr ++ [EvUnregister (Info s)] in
    (out, tr).

(** The run unit of [startServers] and of [startReloadServers]. *)
Definition server_unit (s : Server) : Task :=
  fun tr => registered_run "start server" "stop server" s (tr ++ [EvInit (Name s)]).

(** The run unit of [startOrderServers]. *)
Definition order_unit (s : OrderServer) : Task :=
  registered_run "start order server" "stop order server" s.

Fixpoint startServers_loop (l : list Server) : M unit :=
  match l with
  | [] => ret tt
  | s :: l' => cycle_Run (server_unit s) ;; startServers_loop l'
  end.

Definition startServers : M (option error) :=
  startServers_loop (servers e) ;; ret None.

Fixpoint startReloadServers_loop (l : list ReloadServer) : M unit :=
  match l with
  | [] => ret tt
  | s :: l' => cycle_Run (server_unit s) ;; startReloadServers_loop l'
  end.

Definition startReloadServers : M (option error) :=
  startReloadServers_loop (reloadServers e) ;; ret None.

End Startup.

(** ** startJobs and package errgroup *)

(** A [func() error] started by [errgroup.Group.Go]. *)
Definition JobFn : Type := Trace -> option error * Trace.

(** The zero [errgroup.Group]: the goroutines that have not returned yet and
    the error kept by [errOnce]. *)
Record errgroup_Group : Type := mkGroup {
  eg_running : list JobFn;
  eg_err : option error }.

Definition errgroup_zero : errgroup_Group := mkGroup [] None.

Definition errgroup_Go (fn : JobFn) (g : errgroup_Group) : errgroup_Group :=
  mkGroup (eg_running g ++ [fn]) (eg_err g).

(** The goroutine at position [i] returns; only the first error that is not
    nil is kept. *)
Definition errgroup_done (i : nat) (g : errgroup_Group) (tr : Trace)
  : errgroup_Group * Trace :=
  match eg_running g !! i with
  | Some fn =>
      let '(err, tr') := fn tr in
      (mkGroup (delete i (eg_running g))
         (match eg_err g with Some first => Some first | None => err end), tr')
  | None => (g, tr)
  end.

(** The order in which the goroutines return is not fixed by the program: the
    [k]-th entry of a schedule picks, among those still running, the one that
    returns next. *)
Definition Schedule : Type := list nat.

Fixpoint errgroup_Wait_go (n : nat) (sched : Schedule) (g : errgroup_Group) (tr : Trace)
  : option error * Trace :=
  match n with
  | O => (eg_err g, tr)
  | S n' =>
      let i := Nat.modulo (hd O sched) (length (eg_running g)) in
      let '(g', tr') := errgroup_done i g tr in
      errgroup_Wait_go n' (tl sched) g' tr'
  end.

(** [Wait] returns once every goroutine has returned. *)
Definition errgroup_Wait (sched : Schedule) (g : errgroup_Group) (tr : Trace)
  : option error * Trace :=
  errgroup_Wait_go (length (eg_running g)) sched g tr.

Section Jobs.

Variable e : Ego.
Variable sched : Schedule.

Definition job_fn (runner : Job) : JobFn :=
  fun tr => (job_Start runner, tr ++ [EvJob (job_Name runner) (job_Start runner)]).

Definition startJobs : M (option error) :=
  fun w =>
    if (length (jobs e) =? 0)%nat then (None, w)
    else
      let jobs := map job_fn (jobs e) in
      let eg := fold_left (fun g fn => errgroup_Go fn g) jobs errgroup_zero in
      let '(err, tr) := errgroup_Wait sched eg (events w) in
      (err, mkWorld tr (cycle w)).

End Jobs.

Section OrderedStartup.

Variable e : Ego.
Variable ctx : context_Context.
Variable sched : Schedule.

(** The health loop: [r.Continue(ctx)] is asked before every probe. *)
Fixpoint poll_health (rounds : nat) (k : nat) (s : OrderServer) : M bool :=
  match rounds with
  | O => ret false
  | S rounds' =>
      let ready := Health s k in
      emit (EvHealth (Name s) ready) ;;
      if ready then ret true else poll_health rounds' (S k) s
  end.

Fixpoint startOrderServers_loop (l : list OrderServer) : M (option error * bool) :=
  match l with
  | [] => ret (None, false)
  | s :: l' =>
      emit (EvPrepare (Name s)) ;;
      if (0 <? length (jobs e))%nat then
        err <- startJobs e sched ;; ret (err, true)
      else
        emit (EvInit (Name s)) ;;
        cycle_Run (order_unit e s) ;;
        isHealth <- poll_health (retry_rounds ctx) 0 s ;;
        if negb isHealth then
          ret (Some (fmt_Errorf ("start order server fail,err:  " +:+ Name s)), true)
        else startOrderServers_loop l'
  end.

(** Returns [(err, isNeedStop)]. *)
Definition startOrderServers : M (option error * bool) :=
  startOrderServers_loop (orderServers e).

End OrderedStartup.

Definition world0 : World := mkWorld [] [].

(** ** Clean-up hooks *)

Section Hooks.

(** The state the hooks act on. *)
Context {St : Type}.

(** A [func() error] of the hook lists. *)
Definition Hook : Type := St -> option error * St.

Fixpoint runSerialFuncReturnError (fns : list Hook) (st : St) : option error * St :=
  match fns with
  | [] => (None, st)
  | fn :: fns' =>
      let '(err, st') := fn st in
      match err with
      | Some _ => (err, st')
      | None => runSerialFuncReturnError fns' st'
      end
  end.

(** The second component is the log of [elog.EgoLogger]. *)
Fixpoint runSerialFuncLogError (fns : list Hook) (st : St) (log : list LogEntry)
  : St * list LogEntry :=
  match fns with
  | [] => (st, log)
  | clean :: fns' =>
      let '(err, st') := clean st in
      let log' :=
        match err with
        | Some _ =>
            log ++ [mkLog ErrorLevel "beforeStopClean err"
                      [FieldComponent "app"; FieldErr err]]
        | None => log
        end in
      runSerialFuncLogError fns' st' log'
  end.

(** Every hook of the list called in turn, whatever it returns. *)
Fixpoint run_all (fns : list Hook) (st : St) : St :=
  match fns with
  | [] => st
  | fn :: fns' => run_all fns' (snd (fn st))
  end.

(** The log entries of the hooks that fail when every hook is called in turn. *)
Fixpoint failures (fns : list Hook) (st : St) : list LogEntry :=
  match fns with
  | [] => []
  | fn :: fns' =>
      match fst (fn st) with
      | Some err =>
          mkLog ErrorLevel "beforeStopClean err"
            [FieldComponent "app"; FieldErr (Some err)] :: failures fns' (snd (fn st))
      | None => failures fns' (snd (fn st))
      end
  end.

End Hooks.

(** ** forkChild *)

(** [strings.Join]. *)
Fixpoint strings_Join (elems : list string) (sep : string) : string :=
  match elems with
  | [] => ""
  | [x] => x
  | x :: elems' => x +:+ sep +:+ strings_Join elems' sep
  end.

(** [lo.Contains]. *)
Fixpoint lo_Contains (collection : list string) (element : string) : bool :=
  match collection with
  | [] => false
  | x :: collection' =>
      if bool_decide (x = element) then true else lo_Contains collection' element
  end.

(** [os.Setenv]: the key must not be empty nor hold an equals sign or a NUL
    byte, the value must hold no NUL byte. *)
Definition os_Setenv (key value : string) (env : gmap string string)
  : option error * gmap string string :=
  if bool_decide (key = "") || has_byte "="%char key || has_byte zero key
     || has_byte zero value
  then (Some EINVAL, env)
  else (None, <[key := value]> env).

Record exec_Cmd : Type := {
  cmd_Args : list string;
  cmd_ExtraFiles : list os_File;
  cmd_Env : gmap string string }.

(** [exec.Command(path, args...)]: the first argument is the program itself. *)
Definition exec_Command (path : string) (args : list string) : list string :=
  path :: args.

(** The process state [forkChild] works on: the arguments and the environment
    of the process, the log of [elog.EgoLogger], and the commands on which
    [Start] was called. *)
Record OS : Type := mkOS {
  os_Args : list string;
  os_Environ : gmap string string;
  ego_log : list LogEntry;
  started_cmds : list exec_Cmd }.

(** The result of a call that may panic. *)
Inductive Result (A : Type) : Type :=
| Ok (a : A)
| Panicked (msg : string).
Arguments Ok {A} a.
Arguments Panicked {A} msg.

Definition P (A : Type) : Type := OS -> Result A * OS.

Definition pret {A} (a : A) : P A := fun os => (Ok a, os).
Definition pbind {A B} (m : P A) (k : A -> P B) : P B :=
  fun os =>
    match m os with
    | (Ok a, os') => k a os'
    | (Panicked msg, os') => (Panicked msg, os')
    end.

Declare Scope fork_scope.
Delimit Scope fork_scope with fork.
Notation "x <- c ;;; k" := (pbind c (fun x => k))
  (at level 100, c at next level, right associativity) : fork_scope.
Notation "c ;;; k" := (pbind c (fun _ => k))
  (at level 100, right associativity) : fork_scope.

(** [elog.EgoLogger.Panic]: the entry is written, then the goroutine panics. *)
Definition EgoLogger_Panic {A} (msg : string) (fs : list Field) : P A :=
  fun os =>
    (Panicked msg,
     mkOS (os_Args os) (os_Environ os) (ego_log os ++ [mkLog PanicLevel msg fs]) (started_cmds os)).

Definition EgoLogger_Info (msg : string) (fs : list Field) : P unit :=
  fun os =>
    (Ok tt,
     mkOS (os_Args os) (os_Environ os) (ego_log os ++ [mkLog InfoLevel msg fs]) (started_cmds os)).

(** [os.Setenv] followed by the panic on its error. *)
Definition setenv_or_panic (key value msg : string) : P unit :=
  fun os =>
    match os_Setenv key value (os_Environ os) with
    | (Some err, _) =>
        EgoLogger_Panic msg [FieldComponent "app"; FieldErr (Some err)] os
    | (None, env') => (Ok tt, mkOS (os_Args os) env' (ego_log os) (started_cmds os))
    end.

Section Fork.

Local Open Scope fork_scope.

Variable e : Ego.

(** [cmd.Start]: the process id of the child, or the error. *)
Variable cmd_Start : exec_Cmd -> Z + error.

(** The extraction loop: the names, the files and the count so far. *)
Fixpoint extract (l : list ReloadServer) (acc : list string * list os_File * Z)
  : P (list string * list os_File * Z) :=
  match l with
  | [] => pret acc
  | ln :: l' =>
      let '(fnames, extraFiles, lc) := acc in
      match Listener ln with
      | OtherListener =>
          EgoLogger_Panic "listener is not tcp listener" [FieldComponent "app"]
      | TCPListener (inr err) =>
          EgoLogger_Panic "get listener file failed"
            [FieldComponent "app"; FieldErr (Some err)]
      | TCPListener (inl f) =>
          EgoLogger_Info "set ExtraFiles"
            [FieldComponent "app"; FieldAny "ExtraFiles" (file_Name f)] ;;;
          extract l' (fnames ++ [file_Name f], extraFiles ++ [f], lc + 1)
      end
  end.

(** The arguments given to the child after the program path: those of the
    parent, with the reload flag appended when it is not among them. *)
Definition child_args (osArgs : list string) : list string :=
  let args := if (1 <? length osArgs)%nat then drop 1 osArgs else [] in
  if negb (lo_Contains args "-r") then args ++ ["-r"] else args.

(** Returns the process id of the child and the error of [cmd.Start].  The
    standard streams of the command and the fields [Path] and [Args] of the
    last log entry are left out. *)
Definition forkChild : P (Z * option error) :=
  fun os =>
    match os_Args os with
    | [] => (Panicked "index out of range", os)
    | path :: _ =>
        (acc <- extract (reloadServers e) ([], [], 0) ;;;
         let '(fnames, extraFiles, lc) := acc in
         setenv_or_panic "LISTEN_FDS" (pretty lc) "set env LISTEN_FDS failed" ;;;
         setenv_or_panic "LISTEN_FDNAMES" (strings_Join fnames ":")
           "set env LISTEN_FDNAMES failed" ;;;
         setenv_or_panic "FORK_CHILD" "1" "set env FORK_CHILD failed" ;;;
         (fun os' =>
            let cmd := {| cmd_Args := exec_Command path (child_args (os_Args os'));
                          cmd_ExtraFiles := extraFiles;
                          cmd_Env := os_Environ os' |} in
            let os'' := mkOS (os_Args os') (os_Environ os')
                          (ego_log os' ++ [mkLog InfoLevel "cmd" [FieldComponent "app"]])
                          (started_cmds os' ++ [cmd]) in
            match cmd_Start cmd with
            | inr err => (Ok (0, Some err), os'')
            | inl pid => (Ok (pid, None), os'')
            end)) os
    end.

End Fork.

(** ** waitSignals *)

(** The goroutines of [waitSignals] run concurrently with each other, with the
    timer of the stop context and with the delivery of signals.  They are
    modelled as a transition system: a move names which of them takes its
    next step, and a run is a list of moves. *)

Definition Signal : Type := Z.
Definition SIGQUIT : Signal := 3.

(** [e.stopInfo], without its time stamp. *)
Record stopInfo : Type := {
  isGracefulStop : bool;
  isReload : bool }.

(** The outer goroutine: before its first receive, between the two receives
    (holding the first signal), and after [os.Exit]. *)
Inductive Handler : Type :=
| AwaitFirst
| AwaitSecond (s : Signal)
| Exited.

(** The inner goroutine: not started; started (line 51 not reached yet);
    inside [e.Stop]; blocked on [stopCtx.Done()]; returned. *)
Inductive Shutdown : Type :=
| NotSpawned
| Spawned (grace reload : bool)
| InStop
| AwaitDone
| Finished.

(** The stop context: not created, open, or done with its [Err()]. *)
Inductive CtxState : Type :=
| NoCtx
| CtxOpen
| CtxDone (err : error).

(** [cancel()]: closes an open context with [Canceled], else does nothing. *)
Definition context_cancel (c : CtxState) : CtxState :=
  match c with
  | CtxOpen => CtxDone Canceled
  | _ => c
  end.

(** [errors.Is(err, context.DeadlineExceeded)] on the [Err()] of a context. *)
Definition is_DeadlineExceeded (err : error) : bool :=
  bool_decide (err = DeadlineExceeded).

Record SigState : Type := mkSig {
  sig : list Signal;          (* the channel, of capacity 2 *)
  notifying : bool;           (* [signal.Notify] in force *)
  handler : Handler;
  shutdown : Shutdown;
  stopCtx : CtxState;
  e_stopInfo : option stopInfo;
  logged : list LogEntry;     (* [e.logger] *)
  exit_status : option Z }.

Inductive Move : Type :=
| Deliver (s : Signal)   (* a signal reaches the process *)
| HandlerRecv            (* the outer goroutine receives from [sig] *)
| ShutdownBegin          (* lines 51 to 61 *)
| TimerFires             (* the stop timeout elapses *)
| StopReturns            (* [e.Stop], which is not among the sources, returns *)
| ShutdownEnd.           (* lines 64 to 68 and the deferred calls *)

Section Signals.

(** [ReloadSignal] is declared elsewhere in the package. *)
Variable ReloadSignal : Signal.
(** [e.opts.shutdownSignals]. *)
Variable shutdownSignals : list Signal.

Definition subscribed : list Signal := shutdownSignals ++ [ReloadSignal].

Definition waitSignals_init : SigState :=
  mkSig [] true AwaitFirst NotSpawned NoCtx None [] None.

(** The next step of the component that [l] names; [None] when it cannot
    move: it is blocked, it has returned, or the process has exited.
    A signal is relayed to [sig] only while the registration is in force
    and without blocking: it is dropped when the channel is full. *)
Definition waitSignals_step (l : Move) (st : SigState) : option SigState :=
  match exit_status st with
  | Some _ => None
  | None =>
      match l with
      | Deliver s =>
          if notifying st && bool_decide (s ∈ subscribed) then
            Some (mkSig (if (length (sig st) <? 2)%nat then sig st ++ [s] else sig st)
                    (notifying st) (handler st) (shutdown st) (stopCtx st)
                    (e_stopInfo st) (logged st) (exit_status st))
          else None
      | HandlerRecv =>
          match handler st, sig st with
          | AwaitFirst, s :: q =>
              let grace := negb (bool_decide (s = SIGQUIT)) in
              let reload := bool_decide (s = ReloadSignal) in
              Some (mkSig q (notifying st) (AwaitSecond s) (Spawned grace reload)
                      (stopCtx st) (e_stopInfo st) (logged st) (exit_status st))
          | AwaitSecond s, _ :: q =>
              Some (mkSig q (notifying st) Exited (shutdown st) (stopCtx st)
                      (e_stopInfo st)
                      (logged st ++ [mkLog ErrorLevel "waitSignals quit" []])
                      (Some (128 + s)))
          | _, _ => None
          end
      | ShutdownBegin =>
          match shutdown st with
          | Spawned grace reload =>
              Some (mkSig (sig st) (notifying st) (handler st) InStop CtxOpen
                      (Some {| isGracefulStop := grace; isReload := reload |})
                      (logged st) (exit_status st))
          | _ => None
          end
      | TimerFires =>
          match stopCtx st with
          | CtxOpen =>
              Some (mkSig (sig st) (notifying st) (handler st) (shutdown st)
                      (CtxDone DeadlineExceeded) (e_stopInfo st) (logged st)
                      (exit_status st))
          | _ => None
          end
      | StopReturns =>
          match shutdown st with
          | InStop =>
              Some (mkSig (sig st) (notifying st) (handler st) AwaitDone (stopCtx st)
                      (e_stopInfo st) (logged st) (exit_status st))
          | _ => None
          end
      | ShutdownEnd =>
          match shutdown st, stopCtx st with
          | AwaitDone, CtxDone err =>
              let logged' :=
                if is_DeadlineExceeded err then
                  logged st ++ [mkLog ErrorLevel "waitSignals stop context err"
                                  [FieldErr (Some err)]]
                else logged st in
              Some (mkSig (sig st) false (handler st) Finished
                      (context_cancel (stopCtx st)) (e_stopInfo st) logged'
                      (exit_status st))
          | _, _ => None
          end
      end
  end.

Fixpoint waitSignals_run (ls : list Move) (st : SigState) : option SigState :=
  match ls with
  | [] => Some st
  | l :: ls' =>
      match waitSignals_step l st with
      | Some st' => waitSignals_run ls' st'
      | None => None
      end
  end.

Definition reachable (st : SigState) : Prop :=
  exists ls, waitSignals_run ls waitSignals_init = Some st.

(** The first shutdown has begun and has not completed. *)
Definition in_flight (st : SigState) : Prop :=
  shutdown st <> NotSpawned /\ shutdown st <> Finished.

End Signals.

(** ** Vocabulary of the statements *)

(** The first error that is not nil. *)
Fixpoint first_error (l : list (option error)) : option error :=
  match l with
  | [] => None
  | Some err :: _ => Some err
  | None :: l' => first_error l'
  end.

(** What the return of a job's [Start] leaves in the trace. *)
Definition job_event (j : Job) : Event := EvJob (job_Name j) (job_Start j).

Definition is_init (ev : Event) : bool :=
  match ev with
  | EvInit _ => true
  | _ => false
  end.

Definition is_job (ev : Event) : bool :=
  match ev with
  | EvJob _ _ => true
  | _ => false
  end.

(** ** Sample configurations *)

Definition job_a : Job := {| job_Name := "a"; job_Start := Some (errorString "a failed") |}.
Definition job_b : Job := {| job_Name := "b"; job_Start := None |}.

Definition no_registry : Registerer :=
  {| RegisterService := fun _ => None; UnregisterService := fun _ => None |}.

(** A registry that is down: every call fails. *)
Definition failing_registry : Registerer :=
  {| RegisterService := fun _ => Some (errorString "registry down");
     UnregisterService := fun _ => Some (errorString "registry down") |}.

Definition ctx3 : context_Context := {| retry_rounds := 3 |}.

Definition plain_server (name : string) (out : Outcome) : Server :=
  {| Name := name; PackageName := "server.egin"; Info := {| Label := name |};
     Init := None; Start := out |}.

(** An ordered server that is ready from its [k]-th probe on. *)
Definition ready_after (name : string) (k : nat) : OrderServer :=
  {| order_server := plain_server name (Returns None);
     Prepare := None;
     Health := fun i => (k <=? i)%nat |}.

(** An ordered server that is never ready. *)
Definition never_ready (name : string) : OrderServer :=
  {| order_server := plain_server name (Returns None);
     Prepare := None;
     Health := fun _ => false |}.

Definition ego_jobs_only : Ego :=
  {| servers := []; reloadServers := []; orderServers := [];
     jobs := [job_a; job_b]; registerer := no_registry |}.

Definition ego_job_mode : Ego :=
  {| servers := []; reloadServers := [];
     orderServers := [ready_after "one" 0; ready_after "two" 0];
     jobs := [job_a; job_b]; registerer := no_registry |}.

(** ** Vocabulary of the ordered start-up *)

(** Whether one of the [rounds] probes that follow [k] earlier ones answers
    ready. *)
Fixpoint ready_within (rounds k : nat) (s : OrderServer) : bool :=
  match rounds with
  | O => false
  | S rounds' => Health s k || ready_within rounds' (S k) s
  end.

(** The probes made in at most [rounds] rounds: they end with the first that
    answers ready. *)
Fixpoint probes (rounds k : nat) (s : OrderServer) : list Event :=
  match rounds with
  | O => []
  | S rounds' =>
      EvHealth (Name s) (Health s k)
      :: (if Health s k then [] else probes rounds' (S k) s)
  end.

Definition healthy (ctx : context_Context) (s : OrderServer) : bool :=
  ready_within (retry_rounds ctx) 0 s.

(** The calls made for one entry that is started. *)
Definition entry_calls (ctx : context_Context) (s : OrderServer) : list Event :=
  EvPrepare (Name s) :: EvInit (Name s) :: probes (retry_rounds ctx) 0 s.

(** The entries that get started: all up to the first that does not become
    healthy, that one included. *)
Fixpoint started (ctx : context_Context) (l : list OrderServer) : list OrderServer :=
  match l with
  | [] => []
  | s :: l' => s :: (if healthy ctx s then started ctx l' else [])
  end.

(** The result for the entries [l] when there is no job. *)
Fixpoint sequencer_result (ctx : context_Context) (l : list OrderServer) : option error * bool :=
  match l with
  | [] => (None, false)
  | s :: l' =>
      if healthy ctx s then sequencer_result ctx l'
      else (Some (fmt_Errorf ("start order server fail,err:  " +:+ Name s)), true)
  end.

Fixpoint has_prefix (p s : string) : bool :=
  match p, s with
  | "", _ => true
  | String a p', String b s' => bool_decide (a = b) && has_prefix p' s'
  | _, _ => false
  end.

(** [strings.Contains]. *)
Fixpoint strings_Contains (s substr : string) : bool :=
  has_prefix substr s
  || match s with
     | "" => false
     | String _ s' => strings_Contains s' substr
     end.

(** Two ordered servers; the first is named with a percent sign and never
    becomes ready. *)
Definition ego_percent : Ego :=
  {| servers := []; reloadServers := [];
     orderServers := [never_ready "grpc%s"; ready_after "two" 0];
     jobs := []; registerer := no_registry |}.

(** ** Vocabulary of the run units *)

Definition is_start_or_unregister (ev : Event) : bool :=
  match ev with
  | EvStart _ _ | EvUnregister _ => true
  | _ => false
  end.

(** What a run unit does for its server [s], from any trace on: it registers,
    logs a failure of that, calls [Start], and its last call, after [Start]
    has returned or panicked, is the unregistration; [Start] and the
    unregistration are called once. *)
Definition runs_and_unregisters (e : Ego) (s : Server) (task : Task) : Prop :=
  forall tr,
    exists before stop_entry,
      task tr
      = (Start s,
         tr ++ before
         ++ [EvStart (Name s) (Start s); EvLog stop_entry; EvUnregister (Info s)])
      /\ EvRegister (Info s) (RegisterService (registerer e) (Info s)) ∈ before
      /\ (forall err,
            RegisterService (registerer e) (Info s) = Some err ->
            logger_Error "register service err"
              [FieldComponent (PackageName s); FieldComponentName (Name s);
               FieldErr (Some err)] ∈ before)
      /\ Forall (fun ev => is_start_or_unregister ev = false) before.

(** The run units that a start-up function adds to the supervisor group. *)
Definition submitted {A} (m : M A) (w : World) : list Task :=
  drop (length (cycle w)) (cycle (m w).2).

(** One plain server whose [Start] fails, with a registry that is down. *)
Definition http_server : Server :=
  plain_server "http" (Returns (Some (errorString "listen failed"))).

Definition ego_http : Ego :=
  {| servers := [http_server]; reloadServers := []; orderServers := [];
     jobs := []; registerer := failing_registry |}.

(** ** Vocabulary of the hooks and of the fork *)

(** A hook that notes its number in the list of calls and returns [result]. *)
Definition noting (id : nat) (result : option error) : @Hook (list nat) :=
  fun calls => (result, calls ++ [id]).

(** How often the reload flag occurs. *)
Fixpoint count_flag (l : list string) : nat :=
  match l with
  | [] => O
  | x :: l' => ((if bool_decide (x = "-r") then 1 else 0) + count_flag l')%nat
  end.

Definition start_ok : exec_Cmd -> Z + error := fun _ => inl 4242.

Definition os_of (args : list string) : OS := mkOS args ∅ [] [].

Definition ego_empty : Ego :=
  {| servers := []; reloadServers := []; orderServers := [];
     jobs := []; registerer := no_registry |}.

Definition tcp_server (name file : string) (fd : Z) : ReloadServer :=
  {| reload_server := plain_server name (Returns None);
     Listener := TCPListener (inl {| file_Name := file; file_Fd := fd |}) |}.

Definition ego_reload : Ego :=
  {| servers := [];
     reloadServers := [tcp_server "http" "tcp:[::]:8080->" 7;
                       tcp_server "grpc" "tcp:[::]:9090->" 8];
     orderServers := []; jobs := []; registerer := no_registry |}.

(** ** Vocabulary of the signal handler *)

(** What holds in every state the handler can reach. *)
Definition sig_inv (st : SigState) : Prop :=
  (exit_status st = None <-> handler st <> Exited)
  /\ (handler st = AwaitFirst -> shutdown st = NotSpawned)
  /\ (forall s, handler st = AwaitSecond s -> shutdown st <> NotSpawned)
  /\ (shutdown st <> Finished -> notifying st = true)
  /\ (shutdown st = NotSpawned \/ (exists g r, shutdown st = Spawned g r) ->
      stopCtx st = NoCtx)
  /\ (shutdown st = InStop \/ shutdown st = AwaitDone \/ shutdown st = Finished ->
      stopCtx st = CtxOpen \/ stopCtx st = CtxDone DeadlineExceeded).

(** The signals that reach the process in a run, in their order. *)
Fixpoint delivered (ls : list Move) : list Signal :=
  match ls with
  | [] => []
  | Deliver s :: ls' => s :: delivered ls'
  | _ :: ls' => delivered ls'
  end.

Definition is_recv (l : Move) : bool :=
  match l with
  | HandlerRecv => true
  | _ => false
  end.

(** The entry written when the stop context is found expired. *)
Definition deadline_entry : LogEntry :=
  mkLog ErrorLevel "waitSignals stop context err" [FieldErr (Some DeadlineExceeded)].

Definition SIGINT : Signal := 2.
Definition SIGTERM : Signal := 15.
Definition SIGUSR1 : Signal := 10.

(** The state after SIGTERM was received and [e.Stop] was entered. *)
Definition st_stopping : SigState :=
  mkSig [] true (AwaitSecond SIGTERM) InStop CtxOpen
    (Some {| isGracefulStop := true; isReload := false |}) [] None.

(** The same with SIGINT waiting in the channel and the stop timer expired. *)
Definition st_second : SigState :=
  mkSig [SIGINT] true (AwaitSecond SIGTERM) InStop (CtxDone DeadlineExceeded)
    (Some {| isGracefulStop := true; isReload := false |}) [] None.

(** The state after SIGTERM when [e.Stop] has returned before the timer. *)
Definition st_stopped_in_time : SigState :=
  mkSig [] true (AwaitSecond SIGTERM) AwaitDone CtxOpen
    (Some {| isGracefulStop := true; isReload := false |}) [] None.

(** How often the byte occurs in the string. *)
Fixpoint count_byte (c : ascii) (s : string) : nat :=
  match s with
  | "" => O
  | String x s' => ((if bool_decide (x = c) then 1 else 0) + count_byte c s')%nat
  end.


(** ** Further sample configurations *)

(** Two ordered servers that become ready, the first at its second probe. *)
Definition ego_two_ready : Ego :=
  {| servers := []; reloadServers := [];
     orderServers := [ready_after "one" 1; ready_after "two" 0];
     jobs := []; registerer := no_registry |}.

(** Three ordered servers, the second of which never becomes ready. *)
Definition ego_second_fails : Ego :=
  {| servers := []; reloadServers := [];
     orderServers := [ready_after "one" 0; never_ready "two"; ready_after "three" 0];
     jobs := []; registerer := no_registry |}.


(** ** startCrons *)

(** A cron: the name is there for the trace only, the code calls [Start]. *)
Record Cron : Type := {
  cron_Name : string;
  cron_Start : Outcome }.

(** The run unit of a cron: nothing but its [Start]. *)
Definition cron_unit (c : Cron) : Task :=
  fun tr => (cron_Start c, tr ++ [EvStart (cron_Name c) (cron_Start c)]).

Fixpoint startCrons_loop (l : list Cron) : M unit :=
  match l with
  | [] => ret tt
  | c :: l' => cycle_Run (cron_unit c) ;; startCrons_loop l'
  end.

(** [crons] is [e.crons], a field that the functions above do not read. *)
Definition startCrons (crons : list Cron) : M (option error) :=
  startCrons_loop crons ;; ret None.

Definition is_registry_call (ev : Event) : bool :=
  match ev with
  | EvRegister _ _ | EvUnregister _ => true
  | _ => false
  end.

(** A registry that works, with a server whose [Start] fails. *)
Definition ego_start_fails : Ego :=
  {| servers := [http_server]; reloadServers := []; orderServers := [];
     jobs := []; registerer := no_registry |}.

Definition ego_jobs_swapped : Ego :=
  {| servers := []; reloadServers := []; orderServers := [];
     jobs := [job_b; job_a]; registerer := no_registry |}.


(** ** Vocabulary of the further properties of hooks and fork *)

(** Hooks that note their numbers, from pairs of a number and a result. *)
Definition noting_all (specs : list (nat * option error)) : list (@Hook (list nat)) :=
  map (fun p => noting p.1 p.2) specs.

(** The pairs up to the first whose result is an error, that one included. *)
Fixpoint up_to_failure (specs : list (nat * option error)) : list (nat * option error) :=
  match specs with
  | [] => []
  | (id, Some err) :: _ => [(id, Some err)]
  | (id, None) :: specs' => (id, None) :: up_to_failure specs'
  end.

(** The file that the listener of a reload server gives, when it gives one. *)
Definition listener_file (ln : ReloadServer) : option os_File :=
  match Listener ln with
  | TCPListener (inl f) => Some f
  | _ => None
  end.

Definition has_file (ln : ReloadServer) : bool :=
  match listener_file ln with
  | Some _ => true
  | None => false
  end.

(** The names of the files of the listeners that give one. *)
Definition listener_names (l : list ReloadServer) : list string :=
  map file_Name (omap listener_file l).

(** A reload server whose listener is no TCP listener. *)
Definition unix_server (name : string) : ReloadServer :=
  {| reload_server := plain_server name (Returns None); Listener := OtherListener |}.

Definition ego_bad_listener : Ego :=
  {| servers := [];
     reloadServers := [tcp_server "http" "tcp:[::]:8080->" 7; unix_server "admin"];
     orderServers := []; jobs := []; registerer := no_registry |}.

Definition start_fails : exec_Cmd -> Z + error :=
  fun _ => inr (errorString "fork/exec: no such file").

Definition os_with_env (args : list string) : OS :=
  mkOS args (<["HOME" := "/root"]> (<["LISTEN_FDS" := "9"]> ∅)) [] [].





(** ** Vocabulary of the further properties of the signal handler *)

(** The [stopInfo] that the first signal [s] gives. *)
Definition classify (ReloadSignal s : Signal) : stopInfo :=
  {| isGracefulStop := negb (bool_decide (s = SIGQUIT));
     isReload := bool_decide (s = ReloadSignal) |}.

(** The shutdown goroutine has got past line 56. *)
Definition stop_begun (sh : Shutdown) : bool :=
  match sh with
  | InStop | AwaitDone | Finished => true
  | _ => false
  end.

(** The stop information against the state of the inner goroutine and the
    signal the outer one holds. *)
Definition info_inv (ReloadSignal : Signal) (st : SigState) : Prop :=
  (handler st = AwaitFirst -> e_stopInfo st = None)
  /\ (forall s g r, handler st = AwaitSecond s -> shutdown st = Spawned g r ->
        {| isGracefulStop := g; isReload := r |} = classify ReloadSignal s)
  /\ (forall s i, handler st = AwaitSecond s -> e_stopInfo st = Some i ->
        i = classify ReloadSignal s)
  /\ (stop_begun (shutdown st) = true <-> is_Some (e_stopInfo st))
  /\ (length (sig st) <= 2)%nat
  /\ (shutdown st = Finished ->
      notifying st = false /\ exists err, stopCtx st = CtxDone err).


(** ** loadConfig, initLogger, initTracer, initMaxProcs *)

(** Package econf is not among the sources: its lookups are taken as they
    answer.  [econf_Get key] says whether [econf.Get(key)] is not nil. *)
Record Econf : Type := {
  econf_Get : string -> bool;
  econf_GetBool : string -> bool;
  econf_GetInt : string -> Z }.

(** What [manager.NewDataSource] fails with: the error that the code compares
    with, or another one. *)
Inductive SourceError : Type :=
| ErrDefaultConfigNotExist
| ErrSource (err : error).

Record DataSource : Type := {
  ds_provider : string;
  ds_parser : string;
  ds_tag : string }.

(** The entries of [loadConfig]; the level [Warn] is met here only. *)
Inductive ConfigEntry : Type :=
| WarnNoConfig (addr : string)
| PanicProvider (err : error)
| PanicLoad (err : error)
| InfoInitConfig (addr : string).

(** The configuration that is loaded, and the log. *)
Record ConfState : Type := mkConf {
  loaded : option DataSource;
  conf_log : list ConfigEntry }.

Section LoadConfig.

(** [manager.NewDataSource] and [econf.LoadFromDataSource], which are not
    among the sources, as they answer. *)
Variable NewDataSource : string -> bool -> DataSource + SourceError.
Variable LoadFromDataSource : DataSource -> option error.

(** [configAddr] is [eflag.String("config")], [watch] is [eflag.Bool("watch")]. *)
Definition loadConfig (configAddr : string) (watch : bool) (st : ConfState)
  : Result (option error) * ConfState :=
  match NewDataSource configAddr watch with
  | inr ErrDefaultConfigNotExist =>
      (Ok None, mkConf (loaded st) (conf_log st ++ [WarnNoConfig configAddr]))
  | inr (ErrSource err) =>
      (Panicked "data source: provider error",
       mkConf (loaded st) (conf_log st ++ [PanicProvider err]))
  | inl ds =>
      match LoadFromDataSource ds with
      | Some err =>
          (Panicked "data source: load config",
           mkConf (loaded st) (conf_log st ++ [PanicLoad err]))
      | None =>
          (Ok None, mkConf (Some ds) (conf_log st ++ [InfoInitConfig configAddr]))
      end
  end.

End LoadConfig.

(** The configuration of the tracer: loaded from a key, or the default one. *)
Inductive TraceContainer : Type :=
| otel_Load (key : string)
| otel_DefaultConfig.

Section Init.

(** The state the clean-up hooks act on, and the three hooks that the
    initialisation adds: the [Flush] of the two loggers and the [Stop] of the
    tracer configuration. *)
Context {St : Type}.
Variable DefaultLogger_Flush : @Hook St.
Variable EgoLogger_Flush : @Hook St.
Variable container_Stop : TraceContainer -> @Hook St.

(** The globals that the initialisation writes: the key each logger was
    rebuilt from ([None]: as it was at start), the tracer that is set, the
    hooks of [e.opts.afterStopClean], and the entries written through
    [elog.EgoLogger], whichever logger that is when they are written. *)
Record InitState : Type := mkInit {
  DefaultLogger : option string;
  EgoLogger : option string;
  GlobalTracer : option TraceContainer;
  afterStopClean : list (@Hook St);
  init_log : list LogEntry }.

Variable conf : Econf.
(** [e.opts.configPrefix]. *)
Variable configPrefix : string.
(** [elog.PackageName]. *)
Variable elog_PackageName : string.

Definition initLogger (st : InitState) : option error * InitState :=
  let st1 :=
    if econf_Get conf (configPrefix +:+ "logger.default") then
      mkInit (Some (configPrefix +:+ "logger.default")) (EgoLogger st) (GlobalTracer st)
        (afterStopClean st ++ [DefaultLogger_Flush])
        (init_log st ++ [mkLog InfoLevel "reinit default logger"
                           [FieldComponent elog_PackageName]])
    else st in
  let st2 :=
    if econf_Get conf (configPrefix +:+ "logger.ego") then
      mkInit (DefaultLogger st1) (Some (configPrefix +:+ "logger.ego")) (GlobalTracer st1)
        (afterStopClean st1 ++ [EgoLogger_Flush])
        (init_log st1 ++ [mkLog InfoLevel "reinit ego logger"
                            [FieldComponent elog_PackageName]])
    else st1 in
  (None, st2).

Definition initTracer (st : InitState) : option error * InitState :=
  let container :=
    if econf_Get conf (configPrefix +:+ "trace") then otel_Load (configPrefix +:+ "trace")
    else otel_DefaultConfig in
  if econf_GetBool conf (configPrefix +:+ "trace.disable") then
    (None, mkInit (DefaultLogger st) (EgoLogger st) (GlobalTracer st) (afterStopClean st)
             (init_log st ++ [mkLog InfoLevel "disable trace" [FieldComponent "app"]]))
  else
    (None, mkInit (DefaultLogger st) (EgoLogger st) (Some container)
             (afterStopClean st ++ [container_Stop container])
             (init_log st ++ [mkLog InfoLevel "init trace" [FieldComponent "app"]])).

End Init.

Arguments InitState St : clear implicits.

(** [runtime.GOMAXPROCS(n)] on the current setting, for [n] within 32 bits:
    the previous setting and the new one; a number below 1 changes nothing. *)
Definition runtime_GOMAXPROCS (n cur : Z) : Z * Z :=
  (cur, if n <? 1 then cur else n).

Section MaxProcs.

Variable conf : Econf.
(** [maxprocs.Set] on the current setting: the setting it leaves and its error. *)
Variable maxprocs_Set : Z -> Z * option error.
(** [os.Getpid()]. *)
Variable pid : Z.

(** Works on the setting of GOMAXPROCS and on the entries of [elog.EgoLogger]. *)
Definition initMaxProcs (cur : Z) (log : list LogEntry)
  : option error * Z * list LogEntry :=
  let maxProcs := econf_GetInt conf "ego.maxProc" in
  let '(cur', log') :=
    if negb (maxProcs =? 0) then ((runtime_GOMAXPROCS maxProcs cur).2, log)
    else
      let '(set, err) := maxprocs_Set cur in
      (set,
       match err with
       | Some _ =>
           log ++ [mkLog ErrorLevel "init max procs" [FieldComponent "app"; FieldErr err]]
       | None => log
       end) in
  (None, cur',
   log' ++ [mkLog InfoLevel "init app"
              [FieldComponent "app"; FieldAny "pid" (pretty pid);
               FieldAny "coreNum" (pretty (runtime_GOMAXPROCS (-1) cur').1)]]).

End MaxProcs.


(** ** Sample inputs of the initialisation *)

(** A configuration with a trace section, tracing switched off, both loggers
    configured and no number of processors. *)
Definition conf_trace_off : Econf :=
  {| econf_Get := fun key =>
       bool_decide (key = "trace") || bool_decide (key = "logger.default")
       || bool_decide (key = "logger.ego");
     econf_GetBool := fun key => bool_decide (key = "trace.disable");
     econf_GetInt := fun _ => 0 |}.

(** A configuration that asks for a negative number of processors. *)
Definition conf_negative_procs : Econf :=
  {| econf_Get := fun _ => false;
     econf_GetBool := fun _ => false;
     econf_GetInt := fun key => if bool_decide (key = "ego.maxProc") then -4 else 0 |}.

Definition init0 {St : Type} : InitState St := mkInit None None None [] [].

Definition quota_two : Z -> Z * option error := fun _ => (2, None).

Definition source_missing : string -> bool -> DataSource + SourceError :=
  fun _ _ => inr ErrDefaultConfigNotExist.

Definition load_fails : DataSource -> option error :=
  fun _ => Some (errorString "unmarshal").

Definition source_file : string -> bool -> DataSource + SourceError :=
  fun addr _ => inl {| ds_provider := addr; ds_parser := "toml"; ds_tag := "mapstructure" |}.

Definition load_ok : DataSource -> option error := fun _ => None.

(** * Properties *)

(** ** fmt: fuel and plain text *)

Section FmtFacts.

Local Open Scope nat_scope.

Lemma parsenum_go_length w : forall num isnum,
  String.length (parsenum_go num isnum w).2 <= String.length w.
Proof.
  induction w as [|c w IH]; intros num isnum; simpl; [lia|].
  destruct (is_digit c); [|simpl; lia].
  destruct (tooLarge num); simpl; [lia|].
  specialize (IH (num * 10 + (byte_of c - 48))%Z true). lia.
Qed.

Lemma find_bracket_length s inner rest :
  find_bracket s = Some (inner, rest) -> String.length rest < String.length s.
Proof.
  revert inner rest. induction s as [|c s IH]; intros inner rest; simpl; [done|].
  case_bool_decide.
  - intros [= <- <-]. lia.
  - destruct (find_bracket s) as [[i r]|] eqn:E; [|done].
    intros [= <- <-]. specialize (IH _ _ eq_refl). lia.
Qed.

Lemma parseArgNumber_length t :
  String.length (parseArgNumber t).2 <= String.length t.
Proof.
  unfold parseArgNumber. destruct (String.length t <? 2); simpl; [lia|].
  destruct (find_bracket t) as [[inner rest]|] eqn:E; simpl; [|lia].
  destruct (parsenum inner) as [[? ?] ?]. simpl.
  apply find_bracket_length in E. lia.
Qed.

Lemma strip_length c s t : strip c s = Some t -> String.length s = S (String.length t).
Proof.
  destruct s as [|x s']; simpl; [done|]. case_bool_decide; [|done]. by intros [= ->].
Qed.

Lemma argNumber_length good s :
  String.length (argNumber good s).1.2 <= String.length s.
Proof.
  unfold argNumber. destruct (strip "[" s) as [t|] eqn:E; simpl; [|lia].
  apply strip_length in E. pose proof (parseArgNumber_length t) as H.
  destruct (parseArgNumber t) as [ok rest]. simpl in *. lia.
Qed.

Lemma skip_flags_length s : String.length (skip_flags s) <= String.length s.
Proof.
  induction s as [|c s IH]; simpl; [lia|]. destruct (is_flag c); simpl; lia.
Qed.

Lemma decode_verb_length c s :
  String.length (decode_verb c s).2 <= String.length s.
Proof.
  unfold decode_verb.
  repeat (match goal with
          | |- context [if ?b then _ else _] => destruct b
          | |- context [match ?x with "" => _ | String _ _ => _ end] => destruct x
          end; simpl; try lia).
Qed.

Lemma verb_width_length good after s :
  String.length (verb_width good after s).1.2 <= String.length s.
Proof.
  unfold verb_width. destruct (strip "*" s) as [t|] eqn:E; simpl.
  - apply strip_length in E. lia.
  - pose proof (parsenum_go_length s 0%Z false) as H.
    unfold parsenum. destruct (parsenum_go 0 false s) as [[? ?] ?]. simpl in *. lia.
Qed.

Lemma verb_precision_length good after s :
  String.length (verb_precision good after s).1.2 <= String.length s.
Proof.
  unfold verb_precision. destruct (strip "." s) as [t|] eqn:E; simpl; [|lia].
  apply strip_length in E.
  pose proof (argNumber_length (if after then false else good) t) as H.
  destruct (argNumber _ t) as [[good' t'] after']. simpl in H.
  destruct (strip "*" t') as [t''|] eqn:E'; simpl.
  - apply strip_length in E'. lia.
  - pose proof (parsenum_go_length t' 0%Z false) as H'.
    unfold parsenum. destruct (parsenum_go 0 false t') as [[? ?] ?]. simpl in *. lia.
Qed.

Lemma doVerb_length s : String.length (doVerb s).1.2 <= String.length s.
Proof.
  unfold doVerb.
  pose proof (skip_flags_length s) as H1.
  pose proof (argNumber_length true (skip_flags s)) as H2.
  destruct (argNumber true (skip_flags s)) as [[good1 s2] after1]. simpl in H2.
  pose proof (verb_width_length good1 after1 s2) as H3.
  destruct (verb_width good1 after1 s2) as [[[out_w good2] s3] after2]. simpl in H3.
  pose proof (verb_precision_length good2 after2 s3) as H4.
  destruct (verb_precision good2 after2 s3) as [[[out_p good3] s4] after3].
  simpl in H4.
  assert (String.length
            (if after3 then (good3, s4, after3) else argNumber good3 s4).1.2
          <= String.length s4) as H5.
  { destruct after3; simpl; [lia|]. apply argNumber_length. }
  destruct (if after3 then (good3, s4, after3) else argNumber good3 s4)
    as [[good4 s5] ?]. simpl in H5.
  destruct s5 as [|c t]; simpl; [lia|].
  pose proof (decode_verb_length c t) as H6.
  destruct (decode_verb c t) as [verb rest]. simpl in *. lia.
Qed.

(** More fuel than the length of the format changes nothing: the fuel that
    [fmt_Errorf] gives is enough. *)
Lemma doPrintf_fuel : forall n format m,
  String.length format <= n -> String.length format <= m ->
  doPrintf n format = doPrintf m format.
Proof.
  induction n as [n IH] using lt_wf_ind. intros format m Hn Hm.
  destruct format as [|c rest]; [by destruct n, m|].
  simpl in Hn, Hm. destruct n as [|n]; [lia|]. destruct m as [|m]; [lia|].
  simpl. case_bool_decide.
  - pose proof (doVerb_length rest) as H'.
    destruct (doVerb rest) as [[out rest'] stop]. simpl in H'.
    destruct stop; [done|]. f_equal. apply IH; lia.
  - f_equal. apply IH; lia.
Qed.

(** A format without a percent sign is the text of the error. *)
Lemma doPrintf_plain : forall format n,
  has_byte "%" format = false -> String.length format <= n ->
  doPrintf n format = format.
Proof.
  induction format as [|c rest IH]; intros n Hp Hn; [by destruct n|].
  simpl in Hn. destruct n as [|n]; [lia|]. simpl in *.
  apply orb_false_iff in Hp as [Hc Hp]. rewrite Hc.
  f_equal. apply IH; [done|lia].
Qed.

Lemma fmt_Errorf_plain format :
  has_byte "%" format = false -> fmt_Errorf format = errorString format.
Proof. intros H. unfold fmt_Errorf. f_equal. by apply doPrintf_plain. Qed.

(** What the formatter makes of verbs that have no operand. *)
Example Errorf_verbs :
  fmt_Errorf "a%db" = errorString "a%!d(MISSING)b"
  /\ fmt_Errorf "100%" = errorString "100%!(NOVERB)"
  /\ fmt_Errorf "50%% done" = errorString "50% done"
  /\ fmt_Errorf "%[1]d" = errorString "%!d(BADINDEX)"
  /\ fmt_Errorf "%*d" = errorString "%!(BADWIDTH)%!d(MISSING)"
  /\ fmt_Errorf "%.*dz" = errorString "%!(BADPREC)%!d(MISSING)z"
  /\ fmt_Errorf "%+05.2fq" = errorString "%!f(MISSING)q".
Proof. repeat split; reflexivity. Qed.

End FmtFacts.

(** ** The job runner *)

Section JobFacts.

Local Open Scope nat_scope.

Lemma errgroup_Go_all (js : list JobFn) (g : errgroup_Group) :
  fold_left (fun g fn => errgroup_Go fn g) js g
  = mkGroup (eg_running g ++ js) (eg_err g).
Proof.
  revert g. induction js as [|fn js IH]; intros g; simpl.
  - rewrite app_nil_r. by destruct g.
  - rewrite IH. simpl. by rewrite <- app_assoc.
Qed.

Lemma delete_map {A B} (f : A -> B) (l : list A) (i : nat) :
  delete i (map f l) = map f (delete i l).
Proof.
  revert i. induction l as [|x l IH]; intros [|i]; simpl; try done.
  f_equal. apply IH.
Qed.

(** [Wait] returns after every goroutine has returned, whatever the
    schedule; the error is the first one in the order of return. *)
Lemma errgroup_Wait_go_spec : forall n sched (js : list Job) err tr,
  length js = n ->
  exists finished, finished ≡ₚ js /\
    errgroup_Wait_go n sched (mkGroup (map job_fn js) err) tr
    = (match err with
       | Some first => Some first
       | None => first_error (map job_Start finished)
       end, tr ++ map job_event finished).
Proof.
  induction n as [|n IH]; intros sched js err tr Hlen.
  - destruct js; [|done]. exists []. split; [done|].
    simpl. rewrite app_nil_r. by destruct err.
  - simpl. rewrite length_map.
    set (i := hd 0 sched `mod` length js).
    assert (i < length js) as Hi by (apply Nat.mod_upper_bound; lia).
    destruct (lookup_lt_is_Some_2 js i Hi) as [j Hj].
    unfold errgroup_done. simpl. rewrite list_lookup_fmap, Hj. simpl.
    rewrite delete_map.
    destruct (IH (tl sched) (delete i js)
                (match err with Some first => Some first | None => job_Start j end)
                (tr ++ [EvJob (job_Name j) (job_Start j)])) as (fin & Hperm & ->).
    { rewrite length_delete by eauto. lia. }
    exists (j :: fin). split.
    + rewrite Hperm. symmetry. by apply delete_Permutation.
    + simpl. rewrite <- app_assoc. simpl. f_equal.
      destruct err; [done|]. by destruct (job_Start j).
Qed.

Lemma startJobs_spec e sched w :
  exists finished, finished ≡ₚ jobs e /\
    startJobs e sched w
    = (first_error (map job_Start finished),
       mkWorld (events w ++ map job_event finished) (cycle w)).
Proof.
  unfold startJobs. destruct (jobs e) as [|j js] eqn:E.
  - exists []. split; [done|]. simpl. rewrite app_nil_r. by destruct w.
  - rewrite <- E. assert ((length (jobs e) =? 0) = false) as ->.
    { rewrite E. done. }
    rewrite errgroup_Go_all. simpl. unfold errgroup_Wait. simpl.
    rewrite length_map.
    destruct (errgroup_Wait_go_spec (length (jobs e)) sched (jobs e) None (events w)
                eq_refl) as (fin & Hperm & ->).
    exists fin. done.
Qed.

(** Every order of return comes from some schedule. *)
Lemma errgroup_any_order : forall finished (js : list Job) err tr,
  finished ≡ₚ js ->
  exists sched,
    errgroup_Wait_go (length js) sched (mkGroup (map job_fn js) err) tr
    = (match err with
       | Some first => Some first
       | None => first_error (map job_Start finished)
       end, tr ++ map job_event finished).
Proof.
  induction finished as [|j fin IH]; intros js err tr Hperm.
  - apply Permutation_nil_l in Hperm as <-. exists []. simpl.
    rewrite app_nil_r. by destruct err.
  - assert (j ∈ js) as Hin by (rewrite <- Hperm; left).
    apply list_elem_of_lookup in Hin as [i Hi].
    assert (fin ≡ₚ delete i js) as Hfin.
    { apply (Permutation_cons_inv (a := j)). rewrite Hperm.
      by apply delete_Permutation. }
    destruct (IH (delete i js)
                (match err with Some first => Some first | None => job_Start j end)
                (tr ++ [EvJob (job_Name j) (job_Start j)]) Hfin) as [sched Hs].
    exists (i :: sched).
    pose proof (lookup_lt_Some _ _ _ Hi) as Hlt.
    destruct (length js) as [|n] eqn:En; [lia|].
    simpl. rewrite length_map, En, Nat.mod_small by lia.
    unfold errgroup_done. simpl. rewrite list_lookup_fmap, Hi. simpl.
    rewrite delete_map.
    assert (n = length (delete i js)) as ->.
    { rewrite length_delete by eauto. lia. }
    rewrite Hs. rewrite <- app_assoc. simpl. f_equal.
    destruct err; [done|]. by destruct (job_Start j).
Qed.

End JobFacts.

Lemma first_error_all_nil (l : list Job) :
  Forall (fun j => job_Start j = None) l -> first_error (map job_Start l) = None.
Proof. induction 1 as [|j l Hj _ IH]; simpl; [done|]. by rewrite Hj. Qed.

(** C9: the Job Runner starts every configured job on a goroutine of its own
    and returns only when all of them have returned: the jobs that returned
    are the configured ones, in some order, and every order occurs under some
    schedule.  Its result is the first error that is not nil in the order of
    return; it is nil when no job fails, and with no job configured it returns
    nil at once, the state untouched. *)
Theorem startJobs_returns_first_error (e : Ego) (sched : Schedule) (w : World) :
  (exists finished,
     finished ≡ₚ jobs e /\
     events (startJobs e sched w).2 = events w ++ map job_event finished /\
     cycle (startJobs e sched w).2 = cycle w /\
     (startJobs e sched w).1 = first_error (map job_Start finished)) /\
  (Forall (fun j => job_Start j = None) (jobs e) -> (startJobs e sched w).1 = None) /\
  (jobs e = [] -> startJobs e sched w = (None, w)) /\
  (forall order, order ≡ₚ jobs e -> jobs e <> [] ->
     exists sched',
       startJobs e sched' w
       = (first_error (map job_Start order),
          mkWorld (events w ++ map job_event order) (cycle w))).
Proof.
  destruct (startJobs_spec e sched w) as (fin & Hperm & Heq).
  split; [|split; [|split]].
  - exists fin. rewrite Heq. simpl. done.
  - intros Hall. rewrite Heq. simpl. apply first_error_all_nil.
    by rewrite Hperm.
  - intros Hnil. unfold startJobs. by rewrite Hnil.
  - intros order Horder Hne.
    destruct (errgroup_any_order order (jobs e) None (events w) Horder) as [sched' Hs].
    exists sched'. unfold startJobs.
    destruct (jobs e) as [|j js] eqn:E; [done|]. rewrite <- E in *.
    assert ((length (jobs e) =? 0)%nat = false) as -> by (by rewrite E).
    rewrite errgroup_Go_all. simpl. unfold errgroup_Wait. simpl.
    rewrite length_map, Hs. done.
Qed.

(** ** The ordered start-up sequencer *)

(** C10: with no ordered server configured the sequencer returns a nil error
    and no stop request and does nothing else: the Job Runner is not entered,
    whatever the job set holds, since the test on the job set is inside the
    loop over the ordered servers. *)
Theorem startOrderServers_without_order_servers
  (e : Ego) (ctx : context_Context) (sched : Schedule) (w : World) :
  orderServers e = [] ->
  startOrderServers e ctx sched w = ((None, false), w).
Proof. intros H. unfold startOrderServers. by rewrite H. Qed.

Lemma startOrderServers_without_order_servers_witness :
  startOrderServers ego_jobs_only ctx3 [] world0
  = ((None, false), world0).
Proof.
  apply (startOrderServers_without_order_servers ego_jobs_only). reflexivity.
Defined.

(** C1: when the job set and the list of ordered servers are both non-empty,
    the sequencer calls [Prepare] of the first ordered server, hands over to
    the Job Runner and returns its error with the stop request set.  No
    ordered server is initialised and no run unit is submitted: the calls made
    are that [Prepare] and the jobs. *)
Theorem startOrderServers_job_mode
  (e : Ego) (ctx : context_Context) (sched : Schedule) (w : World) :
  jobs e <> [] -> orderServers e <> [] ->
  exists s rest,
    orderServers e = s :: rest /\
    startOrderServers e ctx sched w
    = (let '(err, w') :=
         startJobs e sched (mkWorld (events w ++ [EvPrepare (Name s)]) (cycle w)) in
       ((err, true), w')) /\
    (startOrderServers e ctx sched w).1.2 = true /\
    cycle (startOrderServers e ctx sched w).2 = cycle w /\
    exists finished,
      finished ≡ₚ jobs e /\
      events (startOrderServers e ctx sched w).2
      = events w ++ EvPrepare (Name s) :: map job_event finished /\
      Forall (fun ev => is_init ev = false)
        (EvPrepare (Name s) :: map job_event finished).
Proof.
  intros Hjobs Hos. unfold startOrderServers.
  destruct (orderServers e) as [|s rest]; [done|].
  exists s, rest. split; [done|].
  assert ((0 <? length (jobs e))%nat = true) as Hlen.
  { destruct (jobs e); [done|]. done. }
  assert (startOrderServers_loop e ctx sched (s :: rest) w
          = (let '(err, w') :=
               startJobs e sched (mkWorld (events w ++ [EvPrepare (Name s)]) (cycle w)) in
             ((err, true), w'))) as Heq.
  { simpl. unfold bind, emit. simpl. rewrite Hlen.
    destruct (startJobs e sched _) as [err w']. done. }
  split; [exact Heq|]. rewrite Heq.
  destruct (startJobs_spec e sched (mkWorld (events w ++ [EvPrepare (Name s)]) (cycle w)))
    as (fin & Hperm & ->). simpl.
  split; [done|]. split; [done|].
  exists fin. split; [done|]. split.
  - by rewrite <- app_assoc.
  - constructor; [done|]. apply Forall_forall. intros ev Hev.
    apply list_elem_of_fmap in Hev as (j & -> & _). done.
Qed.

Lemma startOrderServers_job_mode_witness :
  (startOrderServers ego_job_mode ctx3 [] world0).1.2 = true
  /\ cycle (startOrderServers ego_job_mode ctx3 [] world0).2 = [].
Proof.
  destruct (startOrderServers_job_mode ego_job_mode ctx3 [] world0)
    as (s & rest & _ & _ & Hstop & Hcycle & _); [discriminate|discriminate|].
  split; [exact Hstop|exact Hcycle].
Defined.

Section SequencerFacts.

Variable e : Ego.
Variable ctx : context_Context.
Variable sched : Schedule.

Lemma poll_health_spec : forall rounds k s w,
  poll_health rounds k s w
  = (ready_within rounds k s, mkWorld (events w ++ probes rounds k s) (cycle w)).
Proof.
  induction rounds as [|rounds IH]; intros k s w; simpl.
  - unfold ret. rewrite app_nil_r. by destruct w.
  - unfold bind, emit. simpl. destruct (Health s k); simpl.
    + done.
    + rewrite IH. simpl. by rewrite <- app_assoc.
Qed.

(** With no job, the sequencer starts the entries one after the other and
    stops behind the first that does not become healthy. *)
Lemma startOrderServers_loop_spec :
  jobs e = [] ->
  forall l w,
    startOrderServers_loop e ctx sched l w
    = (sequencer_result ctx l,
       mkWorld (events w ++ concat (map (entry_calls ctx) (started ctx l)))
         (cycle w ++ map (order_unit e) (started ctx l))).
Proof.
  intros Hjobs. induction l as [|s l IH]; intros w; simpl.
  - unfold ret. rewrite !app_nil_r. by destruct w.
  - unfold bind, emit, cycle_Run. simpl. rewrite Hjobs. simpl.
    rewrite poll_health_spec. simpl. fold (healthy ctx s).
    destruct (healthy ctx s); simpl.
    + rewrite IH. simpl. by rewrite <- !app_assoc.
    + unfold ret. rewrite <- !app_assoc. simpl. by rewrite app_nil_r.
Qed.

(** An entry is started only when the entry before it became healthy. *)
Lemma started_after_healthy : forall l n s',
  started ctx l !! S n = Some s' ->
  exists s, l !! n = Some s /\ healthy ctx s = true /\ l !! S n = Some s'.
Proof.
  induction l as [|s l IH]; intros n s' H; [done|].
  simpl in H. destruct (healthy ctx s) eqn:Hs; [|done].
  destruct n as [|n].
  - exists s. split; [done|]. split; [done|]. simpl.
    destruct l; simpl in *; done.
  - destruct (IH n s' H) as (s0 & ? & ? & ?). exists s0. done.
Qed.

(** Behind the first entry that does not become healthy nothing is started,
    and the error is built from that entry's name. *)
Lemma started_until_unhealthy : forall pre s post,
  Forall (fun x => healthy ctx x = true) pre -> healthy ctx s = false ->
  started ctx (pre ++ s :: post) = pre ++ [s]
  /\ sequencer_result ctx (pre ++ s :: post)
     = (Some (fmt_Errorf ("start order server fail,err:  " +:+ Name s)), true).
Proof.
  induction pre as [|x pre IH]; intros s post Hpre Hs; simpl.
  - by rewrite Hs.
  - inversion Hpre as [|? ? Hx Hpre']; subst. rewrite Hx.
    destruct (IH s post Hpre' Hs) as [-> ->]. done.
Qed.

Lemma started_all_healthy : forall l,
  Forall (fun x => healthy ctx x = true) l ->
  started ctx l = l /\ sequencer_result ctx l = (None, false).
Proof.
  induction l as [|x l IH]; intros H; simpl; [done|].
  inversion H as [|? ? Hx Hl]; subst. rewrite Hx.
  destruct (IH Hl) as [-> ->]. done.
Qed.

(** The probes of an entry that becomes healthy end with the one that
    answers ready; those of an entry that does not are all refused. *)
Lemma probes_ready : forall rounds k s,
  ready_within rounds k s = true ->
  exists refused,
    probes rounds k s = refused ++ [EvHealth (Name s) true]
    /\ Forall (fun ev => ev = EvHealth (Name s) false) refused.
Proof.
  induction rounds as [|rounds IH]; intros k s H; [done|].
  simpl in *. destruct (Health s k) eqn:Hk.
  - exists []. done.
  - destruct (IH (S k) s H) as (refused & -> & Hall).
    exists (EvHealth (Name s) false :: refused). split; [done|].
    by constructor.
Qed.

Lemma probes_not_ready : forall rounds k s,
  ready_within rounds k s = false ->
  probes rounds k s = replicate rounds (EvHealth (Name s) false).
Proof.
  induction rounds as [|rounds IH]; intros k s H; [done|].
  simpl in *. apply orb_false_iff in H as [-> H]. f_equal. by apply IH.
Qed.

End SequencerFacts.

Lemma has_byte_app c s t : has_byte c (s +:+ t) = has_byte c s || has_byte c t.
Proof.
  induction s as [|x s IH]; simpl; [done|]. rewrite IH. by rewrite orb_assoc.
Qed.

(** A name without a percent sign is copied into the error. *)
Lemma order_error_plain_name (name : string) :
  has_byte "%" name = false ->
  fmt_Errorf ("start order server fail,err:  " +:+ name)
  = errorString ("start order server fail,err:  " +:+ name).
Proof.
  intros H. apply fmt_Errorf_plain. rewrite has_byte_app, H. reflexivity.
Qed.

(** C2: on the list of two ordered servers whose first is named [grpc%s] and
    never becomes ready, the sequencer stops behind the first entry and asks
    for the stop, but the error it returns does not hold the name of that
    entry: the name went through [fmt.Errorf] as the format. *)
Theorem startOrderServers_error_without_name :
  (startOrderServers ego_percent ctx3 [] world0).1
  = (Some (errorString "start order server fail,err:  grpc%!s(MISSING)"), true)
  /\ strings_Contains "start order server fail,err:  grpc%!s(MISSING)" "grpc%s" = false
  /\ events (startOrderServers ego_percent ctx3 [] world0).2
     = [EvPrepare "grpc%s"; EvInit "grpc%s"; EvHealth "grpc%s" false;
        EvHealth "grpc%s" false; EvHealth "grpc%s" false].
Proof. vm_compute. done. Qed.

(** ** Run units and the registry *)

Section UnitFacts.

Variable e : Ego.

Lemma registered_run_contract start_msg stop_msg (s : Server) :
  runs_and_unregisters e s (registered_run e start_msg stop_msg s).
Proof.
  intros tr. unfold registered_run.
  destruct (RegisterService (registerer e) (Info s)) as [err|] eqn:Hreg.
  - eexists [_; _; _], _. split; [|split; [|split]].
    + rewrite <- !app_assoc. simpl. reflexivity.
    + left.
    + intros err' [= <-]. right. left.
    + repeat constructor.
  - eexists [_; _], _. split; [|split; [|split]].
    + rewrite <- !app_assoc. simpl. reflexivity.
    + left.
    + intros err' [=].
    + repeat constructor.
Qed.

Lemma server_unit_contract (s : Server) :
  runs_and_unregisters e s (server_unit e s).
Proof.
  intros tr. unfold server_unit.
  destruct (registered_run_contract "start server" "stop server" s
              (tr ++ [EvInit (Name s)])) as (before & entry & Heq & Hreg & Hlog & Hall).
  exists (EvInit (Name s) :: before), entry. split; [|split; [|split]].
  - rewrite Heq. by rewrite <- !app_assoc.
  - by right.
  - intros err Herr. right. by apply Hlog.
  - by constructor.
Qed.

Lemma startServers_loop_spec : forall l w,
  startServers_loop e l w
  = (tt, mkWorld (events w) (cycle w ++ map (server_unit e) l)).
Proof.
  induction l as [|s l IH]; intros w; simpl.
  - unfold ret. rewrite app_nil_r. by destruct w.
  - unfold bind, cycle_Run. simpl. rewrite IH. simpl. by rewrite <- app_assoc.
Qed.

Lemma startReloadServers_loop_spec : forall l w,
  startReloadServers_loop e l w
  = (tt, mkWorld (events w)
           (cycle w ++ map (fun s : ReloadServer => server_unit e s) l)).
Proof.
  induction l as [|s l IH]; intros w; simpl.
  - unfold ret. rewrite app_nil_r. by destruct w.
  - unfold bind, cycle_Run. simpl. rewrite IH. simpl. by rewrite <- app_assoc.
Qed.

(** Whatever the job set, the run units of the sequencer are those of the
    first ordered servers. *)
Lemma startOrderServers_loop_cycle ctx sched : forall l w,
  exists l', l' `prefix_of` l
    /\ cycle (startOrderServers_loop e ctx sched l w).2
       = cycle w ++ map (order_unit e) l'.
Proof.
  induction l as [|s l IH]; intros w; simpl.
  - exists []. split; [done|]. simpl. by rewrite app_nil_r.
  - unfold bind, emit, cycle_Run. simpl.
    destruct (0 <? length (jobs e))%nat.
    + destruct (startJobs_spec e sched
                  (mkWorld (events w ++ [EvPrepare (Name s)]) (cycle w)))
        as (fin & _ & ->). simpl.
      exists []. split; [apply prefix_nil|]. simpl. by rewrite app_nil_r.
    + rewrite poll_health_spec. simpl.
      destruct (ready_within (retry_rounds ctx) 0 s); simpl.
      * edestruct IH as (l' & Hpre & ->). simpl.
        exists (s :: l'). split; [by apply prefix_cons|].
        by rewrite <- app_assoc.
      * exists [s]. split; [|done]. apply prefix_cons, prefix_nil.
Qed.

End UnitFacts.

(** C8: every run unit that [startServers], [startReloadServers] and
    [startOrderServers] hand to the supervisor group belongs to one of the
    configured servers, and, run from any point, it calls [Start] whether or
    not the registration failed (a failure is logged before), and its last
    call is the unregistration, made after [Start] has returned nil, returned
    an error or panicked. *)
Theorem run_unit_always_unregisters
  (e : Ego) (ctx : context_Context) (sched : Schedule) (w : World) (task : Task) :
  task ∈ submitted (startServers e) w
  \/ task ∈ submitted (startReloadServers e) w
  \/ task ∈ submitted (startOrderServers e ctx sched) w ->
  exists s : Server,
    (s ∈ servers e
     \/ s ∈ map reload_server (reloadServers e)
     \/ s ∈ map order_server (orderServers e))
    /\ runs_and_unregisters e s task.
Proof.
  unfold submitted. intros [H|[H|H]].
  - unfold startServers, bind in H. rewrite startServers_loop_spec in H.
    simpl in H. rewrite drop_app_length in H.
    apply list_elem_of_fmap in H as (s & -> & Hs).
    exists s. split; [by left|]. apply server_unit_contract.
  - unfold startReloadServers, bind in H. rewrite startReloadServers_loop_spec in H.
    simpl in H. rewrite drop_app_length in H.
    apply list_elem_of_fmap in H as (s & -> & Hs).
    exists s. split; [|apply server_unit_contract].
    right; left. apply list_elem_of_fmap. by exists s.
  - unfold startOrderServers in H.
    destruct (startOrderServers_loop_cycle e ctx sched (orderServers e) w)
      as (l' & Hpre & Heq).
    rewrite Heq, drop_app_length in H.
    apply list_elem_of_fmap in H as (s & -> & Hs).
    exists s. split; [|apply registered_run_contract].
    right; right. apply list_elem_of_fmap. exists s. split; [done|].
    destruct Hpre as [k ->]. apply elem_of_app. by left.
Qed.

Lemma run_unit_always_unregisters_witness :
  exists s : Server,
    (s ∈ servers ego_http
     \/ s ∈ map reload_server (reloadServers ego_http)
     \/ s ∈ map order_server (orderServers ego_http))
    /\ runs_and_unregisters ego_http s (server_unit ego_http http_server).
Proof.
  apply (run_unit_always_unregisters ego_http ctx3 [] world0).
  left. unfold submitted. simpl. left.
Defined.

(** ** The hook runners *)

Section HookFacts.

Context {St : Type}.
Implicit Types (fns : list (@Hook St)) (st : St).

Lemma runSerialFuncLogError_spec : forall fns st log,
  runSerialFuncLogError fns st log = (run_all fns st, log ++ failures fns st).
Proof.
  induction fns as [|fn fns IH]; intros st log; simpl.
  - by rewrite app_nil_r.
  - destruct (fn st) as [[err|] st'] eqn:E; simpl; rewrite IH.
    + by rewrite <- app_assoc.
    + done.
Qed.

Lemma run_all_app : forall fns1 fns2 st,
  run_all (fns1 ++ fns2) st = run_all fns2 (run_all fns1 st).
Proof. induction fns1 as [|fn fns1 IH]; intros fns2 st; simpl; [done|]. apply IH. Qed.

Lemma runSerialFuncReturnError_spec : forall fns st,
  (runSerialFuncReturnError fns st = (None, run_all fns st) /\ failures fns st = [])
  \/ exists pre fn post st2 err,
       fns = pre ++ fn :: post
       /\ runSerialFuncReturnError pre st = (None, run_all pre st)
       /\ failures pre st = []
       /\ fn (run_all pre st) = (Some err, st2)
       /\ runSerialFuncReturnError fns st = (Some err, st2).
Proof.
  induction fns as [|fn fns IH]; intros st; simpl.
  - by left.
  - destruct (fn st) as [[err|] st'] eqn:E; simpl.
    + right. exists [], fn, fns, st', err. simpl. by rewrite E.
    + destruct (IH st') as [[H1 H2]|(pre & f & post & st2 & err & -> & H1 & H2 & H3 & H4)].
      * by left.
      * right. exists (fn :: pre), f, post, st2, err. simpl. rewrite E. simpl.
        done.
Qed.

End HookFacts.

(** C7: the before-stop runner calls the hooks in the order of the list up to
    the first that returns an error: either every hook was called and
    returned nil and the result is nil, or the list splits at a hook before
    which all returned nil, the result is the error of that hook and the state
    is the one that hook left, so none behind it was called.  The after-stop
    runner calls every hook in the order of the list, writes one log entry for
    each that fails and returns nothing. *)
Theorem hook_runners_error_policy {St : Type}
  (fns : list (@Hook St)) (st : St) (log : list LogEntry) :
  ((runSerialFuncReturnError fns st = (None, run_all fns st) /\ failures fns st = [])
   \/ exists pre fn post st2 err,
        fns = pre ++ fn :: post
        /\ runSerialFuncReturnError pre st = (None, run_all pre st)
        /\ failures pre st = []
        /\ fn (run_all pre st) = (Some err, st2)
        /\ st2 = run_all (pre ++ [fn]) st
        /\ runSerialFuncReturnError fns st = (Some err, st2))
  /\ runSerialFuncLogError fns st log = (run_all fns st, log ++ failures fns st).
Proof.
  split; [|apply runSerialFuncLogError_spec].
  destruct (runSerialFuncReturnError_spec fns st)
    as [H|(pre & fn & post & st2 & err & H1 & H2 & H3 & H4 & H5)]; [by left|].
  right. exists pre, fn, post, st2, err. repeat split; try done.
  rewrite run_all_app. simpl. by rewrite H4.
Qed.

(** Three hooks, the second of which fails: the before-stop runner calls the
    first two, the after-stop runner all three. *)
Example hooks_before_stop :
  runSerialFuncReturnError
    [noting 1 None; noting 2 (Some (errorString "flush")); noting 3 None] []
  = (Some (errorString "flush"), [1; 2]%nat).
Proof. reflexivity. Qed.

Example hooks_after_stop :
  runSerialFuncLogError
    [noting 1 None; noting 2 (Some (errorString "flush")); noting 3 None] [] []
  = ([1; 2; 3]%nat,
     [mkLog ErrorLevel "beforeStopClean err"
        [FieldComponent "app"; FieldErr (Some (errorString "flush"))]]).
Proof. reflexivity. Qed.

(** ** The fork/reload protocol *)

Section ForkFacts.

Variable e : Ego.
Variable cmd_Start : exec_Cmd -> Z + error.

(** When the extraction loop completes, every listener gave its file; the
    names, the files and the count grew by one for each. *)
Lemma extract_spec : forall l fnames files lc os fnames' files' lc' os',
  extract l (fnames, files, lc) os = (Ok (fnames', files', lc'), os') ->
  exists new,
    Forall2 (fun (ln : ReloadServer) f => Listener ln = TCPListener (inl f)) l new
    /\ fnames' = fnames ++ map file_Name new
    /\ files' = files ++ new
    /\ lc' = lc + Z.of_nat (length l)
    /\ os_Args os' = os_Args os
    /\ os_Environ os' = os_Environ os
    /\ started_cmds os' = started_cmds os.
Proof.
  induction l as [|ln l IH]; intros fnames files lc os fnames' files' lc' os' H.
  - simpl in H. unfold pret in H. injection H as <- <- <- <-.
    exists []. simpl. rewrite !app_nil_r, Z.add_0_r. repeat split; done.
  - simpl in H. destruct (Listener ln) as [[f|err]|] eqn:Hl; try done.
    unfold pbind, EgoLogger_Info in H. simpl in H.
    apply IH in H as (new & Hall & -> & -> & -> & Hargs & Henv & Hl').
    exists (f :: new). simpl in *. rewrite <- !app_assoc. simpl.
    repeat split; try done.
    + by constructor.
    + lia.
Qed.

Lemma drop_one_args (osArgs : list string) :
  (if (1 <? length osArgs)%nat then drop 1 osArgs else []) = drop 1 osArgs.
Proof. destruct osArgs as [|a [|b l]]; done. Qed.

(** What a call of [forkChild] that returns has done. *)
Lemma forkChild_spec os r os' :
  forkChild e cmd_Start os = (Ok r, os') ->
  exists path files cmd,
    hd_error (os_Args os) = Some path
    /\ Forall2 (fun (ln : ReloadServer) f => Listener ln = TCPListener (inl f))
         (reloadServers e) files
    /\ os_Environ os'
       = <["FORK_CHILD" := "1"]>
           (<["LISTEN_FDNAMES" := strings_Join (map file_Name files) ":"]>
              (<["LISTEN_FDS" := pretty (Z.of_nat (length (reloadServers e)))]>
                 (os_Environ os)))
    /\ started_cmds os' = started_cmds os ++ [cmd]
    /\ cmd_Args cmd = exec_Command path (child_args (os_Args os))
    /\ cmd_ExtraFiles cmd = files
    /\ cmd_Env cmd = os_Environ os'.
Proof.
  unfold forkChild. destruct (os_Args os) as [|path rest] eqn:Hargs; [done|].
  unfold pbind at 1.
  destruct (extract (reloadServers e) ([], [], 0) os) as [[[[fnames files] lc]|msg] os1]
    eqn:Hx; [|done].
  apply extract_spec in Hx as (new & Hall & -> & -> & -> & Ha & He & Hl).
  simpl. unfold pbind, setenv_or_panic, os_Setenv. simpl. rewrite !Z.add_0_l.
  destruct (has_byte zero (pretty (Z.of_nat (length (reloadServers e))))); [done|].
  simpl.
  destruct (has_byte zero (strings_Join (map file_Name new) ":")); [done|].
  simpl. intros H.
  exists path, new.
  destruct (cmd_Start _) eqn:Hs in H; injection H as <- <-; simpl;
    eexists; rewrite Ha, He, Hl, Hargs; simpl; repeat split; done.
Qed.

End ForkFacts.

(** C5: when [forkChild] returns, every reload server gave the file of its
    listener, and the environment of the child holds under [LISTEN_FDS] the
    decimal count of these servers and under [LISTEN_FDNAMES] the names of
    their files joined by colons: as many names as the count says, one for
    each extra file handed over. *)
Theorem forkChild_count_matches_names
  (e : Ego) (cmd_Start : exec_Cmd -> Z + error) (os : OS) r (os' : OS) :
  forkChild e cmd_Start os = (Ok r, os') ->
  exists (fnames : list string) (cmd : exec_Cmd),
    started_cmds os' = started_cmds os ++ [cmd]
    /\ cmd_Env cmd !! "LISTEN_FDS" = Some (pretty (Z.of_nat (length fnames)))
    /\ cmd_Env cmd !! "LISTEN_FDNAMES" = Some (strings_Join fnames ":")
    /\ cmd_Env cmd !! "FORK_CHILD" = Some "1"
    /\ length fnames = length (reloadServers e)
    /\ fnames = map file_Name (cmd_ExtraFiles cmd)
    /\ Forall2 (fun (ln : ReloadServer) f => Listener ln = TCPListener (inl f))
         (reloadServers e) (cmd_ExtraFiles cmd).
Proof.
  intros H.
  apply forkChild_spec in H as (path & files & cmd & _ & Hall & Henv & Hl & _ & Hf & Hc).
  assert (length files = length (reloadServers e)) as Hlen.
  { symmetry. by eapply Forall2_length. }
  exists (map file_Name files), cmd. rewrite Hc, Henv, Hf, length_map, Hlen.
  repeat split; try done.
  - rewrite !lookup_insert_ne by done. apply lookup_insert_eq.
  - rewrite lookup_insert_ne by done. apply lookup_insert_eq.
  - apply lookup_insert_eq.
Qed.

Lemma forkChild_count_matches_names_witness :
  exists (fnames : list string) (cmd : exec_Cmd),
    started_cmds (forkChild ego_reload start_ok (os_of ["ego"; "--config=a.toml"])).2
    = [] ++ [cmd]
    /\ cmd_Env cmd !! "LISTEN_FDS" = Some (pretty (Z.of_nat (length fnames)))
    /\ cmd_Env cmd !! "LISTEN_FDNAMES" = Some (strings_Join fnames ":")
    /\ cmd_Env cmd !! "FORK_CHILD" = Some "1"
    /\ length fnames = 2%nat
    /\ fnames = map file_Name (cmd_ExtraFiles cmd)
    /\ Forall2 (fun (ln : ReloadServer) f => Listener ln = TCPListener (inl f))
         (reloadServers ego_reload) (cmd_ExtraFiles cmd).
Proof.
  apply (forkChild_count_matches_names ego_reload start_ok
           (os_of ["ego"; "--config=a.toml"]) (4242, None)).
  vm_compute. reflexivity.
Defined.

(** The decimal text of a count holds no NUL byte, so [LISTEN_FDS] can always
    be set. *)
Lemma pretty_N_go_no_nul (x : N) : forall s,
  has_byte zero s = false -> has_byte zero (pretty_N_go x s) = false.
Proof.
  induction (N.lt_wf_0 x) as [x _ IH]; intros s Hs.
  assert (x = 0 \/ 0 < x)%N as [->|Hx] by lia.
  - by rewrite pretty_N_go_0.
  - rewrite pretty_N_go_step by done. apply IH.
    + by apply N.div_lt.
    + simpl. rewrite Hs. unfold pretty_N_char.
      by repeat case_match.
Qed.

Lemma pretty_count_no_nul (n : nat) : has_byte zero (pretty (Z.of_nat n)) = false.
Proof.
  unfold pretty, pretty_Z, pretty, pretty_positive, pretty, pretty_N.
  destruct (Z.of_nat n) as [|p|p] eqn:E; [done| |lia].
  case_decide; [done|]. by apply pretty_N_go_no_nul.
Qed.

Section ForkReturns.

Variable e : Ego.
Variable cmd_Start : exec_Cmd -> Z + error.

Lemma extract_total : forall l new fnames files lc os,
  Forall2 (fun (ln : ReloadServer) f => Listener ln = TCPListener (inl f)) l new ->
  exists os', extract l (fnames, files, lc) os = (Ok (fnames ++ map file_Name new,
                                                      files ++ new,
                                                      lc + Z.of_nat (length l)), os')
              /\ os_Args os' = os_Args os /\ os_Environ os' = os_Environ os.
Proof.
  intros l new fnames files lc os H. revert fnames files lc os.
  induction H as [|ln f l new Hf Hall IH]; intros fnames files lc os.
  - exists os. simpl. unfold pret. rewrite !app_nil_r, Z.add_0_r. done.
  - simpl. rewrite Hf. unfold pbind, EgoLogger_Info. simpl.
    edestruct IH as (os' & -> & Ha & He). exists os'. simpl in *.
    rewrite <- !app_assoc. simpl. repeat split; try done.
    do 3 f_equal. lia.
Qed.

(** [forkChild] returns, with the result of [cmd.Start], when the process
    has its own path among its arguments, every reload server has a TCP
    listener that gives its file, and no file name holds a NUL byte. *)
Lemma forkChild_returns os path rest new :
  os_Args os = path :: rest ->
  Forall2 (fun (ln : ReloadServer) f => Listener ln = TCPListener (inl f))
    (reloadServers e) new ->
  has_byte zero (strings_Join (map file_Name new) ":") = false ->
  exists r os', forkChild e cmd_Start os = (Ok r, os').
Proof.
  intros Hargs Hall Hnul. unfold forkChild. rewrite Hargs.
  unfold pbind at 1.
  destruct (extract_total _ _ [] [] 0 os Hall) as (os1 & -> & Ha & He).
  simpl. unfold pbind, setenv_or_panic, os_Setenv. simpl.
  rewrite Z.add_0_l, pretty_count_no_nul. simpl. rewrite Hnul. simpl.
  destruct (cmd_Start _); eauto.
Qed.

End ForkReturns.

(** ** Reading the names back *)




(** The file of a TCP listener is named after its addresses, with colons. *)
Example listener_names_hold_colons :
  strings_Join ["tcp:[::]:8080->"; "tcp:[::]:9090->"] ":"
  = "tcp:[::]:8080->:tcp:[::]:9090->"
  /\ count_byte ":" (strings_Join ["tcp:[::]:8080->"; "tcp:[::]:9090->"] ":") = 9%nat.
Proof. split; reflexivity. Qed.

(** ** The arguments of the reload child *)

Lemma lo_Contains_count (l : list string) :
  lo_Contains l "-r" = negb (count_flag l =? 0)%nat.
Proof.
  induction l as [|x l IH]; simpl; [done|].
  case_bool_decide; simpl; [done|]. exact IH.
Qed.

Lemma count_flag_app (l1 l2 : list string) :
  count_flag (l1 ++ l2) = (count_flag l1 + count_flag l2)%nat.
Proof. induction l1 as [|x l1 IH]; simpl; [done|]. rewrite IH. lia. Qed.

Lemma child_args_unfold (osArgs : list string) :
  child_args osArgs
  = if lo_Contains (drop 1 osArgs) "-r" then drop 1 osArgs
    else drop 1 osArgs ++ ["-r"].
Proof.
  unfold child_args. rewrite drop_one_args.
  by destruct (lo_Contains (drop 1 osArgs) "-r").
Qed.

(** C6, as the code has it: the child is started with the arguments of the
    parent, to which the flag [-r] is appended when it is not among them and
    which are left as they are when it is.  The child so carries the flag as
    often as the parent does and at least once, hence exactly once when the
    parent carries it at most once, and doing the same again for the child
    changes nothing. *)
Theorem child_args_carries_reload_flag (osArgs : list string) :
  (lo_Contains (drop 1 osArgs) "-r" = false ->
   child_args osArgs = drop 1 osArgs ++ ["-r"])
  /\ (lo_Contains (drop 1 osArgs) "-r" = true -> child_args osArgs = drop 1 osArgs)
  /\ count_flag (child_args osArgs) = Nat.max 1 (count_flag (drop 1 osArgs))
  /\ ((count_flag (drop 1 osArgs) <= 1)%nat -> count_flag (child_args osArgs) = 1%nat)
  /\ (forall path, child_args (exec_Command path (child_args osArgs)) = child_args osArgs)
  /\ (forall e cmd_Start os r os',
        os_Args os = osArgs ->
        forkChild e cmd_Start os = (Ok r, os') ->
        exists path cmd,
          hd_error osArgs = Some path
          /\ started_cmds os' = started_cmds os ++ [cmd]
          /\ cmd_Args cmd = path :: child_args osArgs).
Proof.
  assert (count_flag (child_args osArgs) = Nat.max 1 (count_flag (drop 1 osArgs))) as Hc.
  { rewrite child_args_unfold, lo_Contains_count.
    destruct (count_flag (drop 1 osArgs)) as [|n] eqn:E; simpl.
    - rewrite count_flag_app, E. done.
    - rewrite E. lia. }
  split; [|split; [|split; [|split; [|split]]]].
  - intros H. by rewrite child_args_unfold, H.
  - intros H. by rewrite child_args_unfold, H.
  - exact Hc.
  - intros Hle. rewrite Hc. lia.
  - intros path. unfold exec_Command.
    rewrite (child_args_unfold (path :: _)). simpl. rewrite drop_0.
    rewrite lo_Contains_count, Hc.
    destruct (Nat.max 1 (count_flag (drop 1 osArgs))) eqn:E; [lia|done].
  - intros e cmd_Start os r os' Hargs H.
    apply forkChild_spec in H as (path & files & cmd & Hp & _ & _ & Hl & Ha & _).
    exists path, cmd. rewrite <- Hargs. done.
Qed.

(** C6, as it is stated, fails: a parent started with the flag twice hands
    both on to the child. *)
Lemma child_args_flag_twice :
  (exists cmd,
     started_cmds (forkChild ego_empty start_ok (os_of ["ego"; "-r"; "-r"])).2 = [cmd]
     /\ cmd_Args cmd = ["ego"; "-r"; "-r"])
  /\ count_flag (child_args ["ego"; "-r"; "-r"]) = 2%nat
  /\ count_flag (child_args ["ego"; "-r"; "-r"]) <> 1%nat.
Proof.
  split; [|split].
  - eexists. split; [vm_compute; reflexivity|reflexivity].
  - reflexivity.
  - discriminate.
Qed.

(** ** The signal handler *)

Section SignalFacts.

Variable ReloadSignal : Signal.
Variable shutdownSignals : list Signal.

Abbreviation step := (waitSignals_step ReloadSignal shutdownSignals).
Abbreviation run := (waitSignals_run ReloadSignal shutdownSignals).

Lemma sig_inv_init : sig_inv waitSignals_init.
Proof.
  unfold sig_inv, waitSignals_init. simpl. repeat split; try done.
  - intros [?|[?|?]]; done.
Qed.

Lemma sig_inv_step l st st' :
  step l st = Some st' -> sig_inv st -> sig_inv st'.
Proof.
  destruct st as [q n h sh c si lg ex]. unfold waitSignals_step, sig_inv. simpl.
  destruct ex; [done|].
  intros Hstep Hinv. destruct Hinv as (? & ? & ? & ? & ? & ?).
  destruct l; simpl in Hstep;
    repeat match type of Hstep with
           | context [if ?b then _ else _] => destruct b
           | context [match ?x with _ => _ end] => destruct x
           end;
    try discriminate Hstep; injection Hstep as <-; simpl in *;
    repeat split; intros;
    repeat match goal with
           | H : _ \/ _ |- _ => destruct H
           | H : exists _, _ |- _ => destruct H
           end;
    try discriminate; try congruence; eauto;
    try (assert (CtxOpen = NoCtx) by eauto; discriminate);
    intuition congruence.
Qed.

Lemma sig_inv_run : forall ls st st',
  run ls st = Some st' -> sig_inv st -> sig_inv st'.
Proof.
  induction ls as [|l ls IH]; intros st st' H Hinv; simpl in H.
  - by injection H as <-.
  - destruct (step l st) as [st1|] eqn:E; [|done].
    eapply IH; [done|]. by eapply sig_inv_step.
Qed.

Lemma reachable_inv st : reachable ReloadSignal shutdownSignals st -> sig_inv st.
Proof. intros [ls H]. eapply sig_inv_run; [done|]. apply sig_inv_init. Qed.

(** While the outer goroutine holds the first signal and something waits
    in the channel, the moves of the others leave that so. *)
Lemma pending_kept : forall ls st st' s1,
  Forall (fun l => is_recv l = false) ls ->
  run ls st = Some st' ->
  handler st = AwaitSecond s1 -> sig st <> [] -> exit_status st = None ->
  handler st' = AwaitSecond s1 /\ sig st' <> [] /\ exit_status st' = None.
Proof.
  induction ls as [|l ls IH]; intros st st' s1 Hall Hrun Hh Hq Hex; simpl in Hrun.
  - injection Hrun as <-. done.
  - inversion Hall as [|? ? Hl Hall']; subst.
    destruct (step l st) as [st1|] eqn:E; [|done].
    assert (handler st1 = AwaitSecond s1 /\ sig st1 <> [] /\ exit_status st1 = None)
      as (Ha & Hb & Hc).
    { unfold waitSignals_step in E. rewrite Hex in E.
      destruct l; simpl in Hl; try done;
        repeat case_match; try done; injection E as <-; simpl; repeat split;
        try done.
      by destruct (sig st). }
    by apply (IH st1 st' s1 Hall' Hrun Ha Hb Hc).
Qed.

(** A process that has exited makes no move. *)
Lemma exited_stuck st l : exit_status st <> None -> step l st = None.
Proof. unfold waitSignals_step. by destruct (exit_status st). Qed.

End SignalFacts.

Section SignalRuns.

Variable ReloadSignal : Signal.
Variable shutdownSignals : list Signal.

Abbreviation step := (waitSignals_step ReloadSignal shutdownSignals).
Abbreviation run := (waitSignals_run ReloadSignal shutdownSignals).

Lemma run_app : forall ls1 ls2 st,
  run (ls1 ++ ls2) st
  = match run ls1 st with
    | Some st1 => run ls2 st1
    | None => None
    end.
Proof.
  induction ls1 as [|l ls1 IH]; intros ls2 st; simpl; [done|].
  destruct (step l st); [apply IH|done].
Qed.

Lemma delivered_app ls1 ls2 : delivered (ls1 ++ ls2) = delivered ls1 ++ delivered ls2.
Proof.
  induction ls1 as [|l ls1 IH]; simpl; [done|]. destruct l; simpl; by rewrite ?IH.
Qed.

(** The outer goroutine holds the first signal that reached the process,
    and the exit status is made from that one. *)
Lemma run_first_signal : forall ls st,
  run ls waitSignals_init = Some st ->
  match handler st with
  | AwaitFirst => sig st = take 2 (delivered ls)
  | AwaitSecond s => head (delivered ls) = Some s /\ exit_status st = None
  | Exited => exists s, head (delivered ls) = Some s /\ exit_status st = Some (128 + s)
  end.
Proof.
  induction ls as [|l ls IH] using rev_ind; intros st Hrun.
  - injection Hrun as <-. done.
  - rewrite run_app in Hrun.
    destruct (run ls waitSignals_init) as [st0|] eqn:Hrun0; [|done].
    specialize (IH st0 eq_refl).
    pose proof (reachable_inv ReloadSignal shutdownSignals st0
                  (ex_intro _ ls Hrun0)) as (_ & Hfirst & _ & Hnot & _).
    simpl in Hrun. destruct (step l st0) as [st1|] eqn:E; [|done].
    injection Hrun as <-. rewrite delivered_app.
    unfold waitSignals_step in E. destruct (exit_status st0) eqn:Hex; [done|].
    destruct l; simpl.
    + destruct (notifying st0 && bool_decide (s ∈ subscribed ReloadSignal shutdownSignals));
        [|done].
      injection E as <-. simpl. destruct (handler st0) as [|s1|].
      * rewrite IH.
        destruct (delivered ls) as [|a [|b d]]; simpl; done.
      * destruct IH as [IH ?]. split; [|done].
        destruct (delivered ls); done.
      * destruct IH as (s0 & _ & ?). congruence.
    + rewrite app_nil_r.
      destruct (handler st0) as [|s1|] eqn:Hh.
      * destruct (sig st0) as [|s q] eqn:Hq; [done|]. injection E as <-. simpl.
        split; [|done]. destruct (delivered ls) as [|a [|b d]]; simpl in *; congruence.
      * destruct (sig st0) as [|s q] eqn:Hq; [done|]. injection E as <-. simpl.
        exists s1. by destruct IH.
      * done.
    + rewrite app_nil_r. destruct (shutdown st0); try done.
      injection E as <-. simpl. done.
    + rewrite app_nil_r. destruct (stopCtx st0); try done.
      injection E as <-. simpl. done.
    + rewrite app_nil_r. destruct (shutdown st0); try done.
      injection E as <-. simpl. done.
    + rewrite app_nil_r. destruct (shutdown st0); try done.
      destruct (stopCtx st0); try done.
      injection E as <-. simpl. done.
Qed.

(** The wait on the stop context ends only by the timer: nothing cancels
    the context before, so whenever the inner goroutine gets past the wait
    it finds the deadline exceeded and writes the entry. *)
Lemma shutdown_end_always_logs st st' :
  reachable ReloadSignal shutdownSignals st ->
  step ShutdownEnd st = Some st' ->
  stopCtx st = CtxDone DeadlineExceeded
  /\ logged st' = logged st ++ [deadline_entry]
  /\ shutdown st' = Finished /\ notifying st' = false.
Proof.
  intros Hreach Hstep.
  pose proof (reachable_inv _ _ _ Hreach) as (_ & _ & _ & _ & _ & Hctx).
  unfold waitSignals_step in Hstep. destruct (exit_status st); [done|].
  destruct (shutdown st) eqn:Hsh; try done.
  destruct (Hctx (or_intror (or_introl eq_refl))) as [Hc|Hc]; rewrite Hc in Hstep;
    [done|].
  injection Hstep as <-. simpl. done.
Qed.

(** The wait of the inner goroutine ends: at the latest when the timer has
    fired, the goroutine can go on, and it then returns. *)
Lemma shutdown_wait_ends st :
  reachable ReloadSignal shutdownSignals st ->
  shutdown st = AwaitDone -> exit_status st = None ->
  exists ls st', run ls st = Some st' /\ shutdown st' = Finished.
Proof.
  intros Hreach Hsh Hex.
  pose proof (reachable_inv _ _ _ Hreach) as (_ & _ & _ & _ & _ & Hctx).
  destruct (Hctx (or_intror (or_introl Hsh))) as [Hc|Hc].
  - exists [TimerFires; ShutdownEnd]. destruct st; simpl in *; subst.
    unfold waitSignals_step. simpl. eauto.
  - exists [ShutdownEnd]. destruct st; simpl in *; subst.
    unfold waitSignals_step. simpl. eauto.
Qed.

End SignalRuns.

(** C3: once the outer goroutine holds the first signal [s1] and the shutdown
    it started has not completed, a further signal of the subscribed set is
    taken into the channel, and, whatever the shutdown and the timer do in
    between, the next move of the outer goroutine ends the process with exit
    status 128 plus the number of [s1], the signal received first; the
    shutdown goroutine is left where it was and nothing moves any more. *)
Theorem second_signal_exits
  (ReloadSignal : Signal) (shutdownSignals : list Signal)
  (ls : list Move) (st : SigState) (s1 s2 : Signal) :
  waitSignals_run ReloadSignal shutdownSignals ls waitSignals_init = Some st ->
  handler st = AwaitSecond s1 ->
  in_flight st ->
  s2 ∈ subscribed ReloadSignal shutdownSignals ->
  head (delivered ls) = Some s1
  /\ is_Some (waitSignals_step ReloadSignal shutdownSignals (Deliver s2) st)
  /\ forall others st',
       Forall (fun l => is_recv l = false) others ->
       waitSignals_run ReloadSignal shutdownSignals (Deliver s2 :: others) st = Some st' ->
       exists st'',
         waitSignals_step ReloadSignal shutdownSignals HandlerRecv st' = Some st''
         /\ exit_status st'' = Some (128 + s1)
         /\ shutdown st'' = shutdown st'
         /\ forall l, waitSignals_step ReloadSignal shutdownSignals l st'' = None.
Proof.
  intros Hrun Hh [_ Hfl] Hs2.
  pose proof (run_first_signal _ _ _ _ Hrun) as Hfirst. rewrite Hh in Hfirst.
  destruct Hfirst as [Hhead Hex].
  pose proof (reachable_inv _ _ _ (ex_intro _ ls Hrun)) as (_ & _ & _ & Hnot & _).
  specialize (Hnot Hfl).
  assert (exists st1, waitSignals_step ReloadSignal shutdownSignals (Deliver s2) st = Some st1
                      /\ handler st1 = AwaitSecond s1 /\ sig st1 <> []
                      /\ exit_status st1 = None) as (st1 & Hst1 & Hh1 & Hq1 & Hex1).
  { unfold waitSignals_step. rewrite Hex, Hnot. simpl. rewrite bool_decide_true by done.
    eexists. split; [done|]. simpl. repeat split; try done.
    destruct (sig st) as [|a [|b q]]; done. }
  split; [done|]. split; [by exists st1|].
  intros others st' Hothers Hrun'. simpl in Hrun'. rewrite Hst1 in Hrun'.
  destruct (pending_kept _ _ _ _ _ _ Hothers Hrun' Hh1 Hq1 Hex1) as (Hh' & Hq' & Hex').
  unfold waitSignals_step at 1. rewrite Hex', Hh'.
  destruct (sig st') as [|a q]; [done|].
  eexists. split; [done|]. simpl. repeat split; done.
Qed.

Lemma second_signal_exits_witness :
  exists st'',
    waitSignals_step SIGUSR1 [SIGQUIT; SIGINT; SIGTERM] HandlerRecv st_second = Some st''
    /\ exit_status st'' = Some 143.
Proof.
  assert (SIGINT ∈ subscribed SIGUSR1 [SIGQUIT; SIGINT; SIGTERM]) as Hin.
  { right. left. }
  assert (in_flight st_stopping) as Hfl.
  { split; discriminate. }
  destruct (second_signal_exits SIGUSR1 [SIGQUIT; SIGINT; SIGTERM]
              [Deliver SIGTERM; HandlerRecv; ShutdownBegin] st_stopping SIGTERM SIGINT
              eq_refl eq_refl Hfl Hin)
    as (_ & _ & H).
  destruct (H [TimerFires] st_second) as (st'' & H1 & H2 & _).
  - repeat constructor.
  - reflexivity.
  - exists st''. split; [exact H1|exact H2].
Defined.

(** C4: [e.Stop] returns before the stop timer expires, yet the inner
    goroutine cannot get past its wait until the timer has fired, and once it
    has, the goroutine records the deadline error although the Stop procedure
    finished in time; after that it ends, with the registration of the
    signals removed. *)
Theorem stop_in_time_still_recorded :
  waitSignals_run SIGUSR1 [SIGQUIT; SIGINT; SIGTERM]
    [Deliver SIGTERM; HandlerRecv; ShutdownBegin; StopReturns] waitSignals_init
  = Some st_stopped_in_time
  /\ stopCtx st_stopped_in_time = CtxOpen
  /\ waitSignals_step SIGUSR1 [SIGQUIT; SIGINT; SIGTERM] ShutdownEnd st_stopped_in_time = None
  /\ exists st_end,
       waitSignals_run SIGUSR1 [SIGQUIT; SIGINT; SIGTERM] [TimerFires; ShutdownEnd]
         st_stopped_in_time = Some st_end
       /\ logged st_end = [deadline_entry]
       /\ shutdown st_end = Finished
       /\ notifying st_end = false.
Proof.
  split; [reflexivity|]. split; [reflexivity|]. split; [reflexivity|].
  eexists. split; [reflexivity|]. simpl. done.
Qed.

(** * Further properties *)

(** ** The sequencer without jobs *)

Lemma probes_length : forall rounds k s, (length (probes rounds k s) <= rounds)%nat.
Proof.
  induction rounds as [|rounds IH]; intros k s; simpl; [lia|].
  destruct (Health s k); simpl; [lia|]. specialize (IH (S k) s). lia.
Qed.

Lemma startOrderServers_no_jobs e ctx sched w :
  jobs e = [] ->
  startOrderServers e ctx sched w
  = (sequencer_result ctx (orderServers e),
     mkWorld (events w ++ concat (map (entry_calls ctx) (started ctx (orderServers e))))
       (cycle w ++ map (order_unit e) (started ctx (orderServers e)))).
Proof. intros H. unfold startOrderServers. by apply startOrderServers_loop_spec. Qed.

(** X1: with no job and every ordered server healthy within the rounds of the
    retry policy, the sequencer returns a nil error and no stop request; it
    has prepared and initialised every entry and probed it up to its first
    ready answer, one entry after the other in the order of the list, and has
    submitted one run unit for each, in that order. *)
Theorem sequencer_all_healthy
  (e : Ego) (ctx : context_Context) (sched : Schedule) (w : World) :
  jobs e = [] ->
  Forall (fun s => healthy ctx s = true) (orderServers e) ->
  startOrderServers e ctx sched w
  = ((None, false),
     mkWorld (events w ++ concat (map (entry_calls ctx) (orderServers e)))
       (cycle w ++ map (order_unit e) (orderServers e)))
  /\ Forall (fun s : OrderServer =>
       exists refused,
         entry_calls ctx s
         = EvPrepare (Name s) :: EvInit (Name s) :: refused ++ [EvHealth (Name s) true]
         /\ Forall (fun ev => ev = EvHealth (Name s) false) refused
         /\ (length refused < retry_rounds ctx)%nat) (orderServers e).
Proof.
  intros Hjobs Hall. split.
  - rewrite startOrderServers_no_jobs by done.
    by destruct (started_all_healthy ctx _ Hall) as [-> ->].
  - eapply Forall_impl; [exact Hall|]. intros s Hs. simpl in Hs.
    destruct (probes_ready _ _ _ Hs) as (refused & Hp & Href).
    exists refused. unfold entry_calls. rewrite Hp. split; [done|]. split; [done|].
    pose proof (probes_length (retry_rounds ctx) 0 s) as Hlen.
    rewrite Hp, length_app in Hlen. simpl in Hlen. lia.
Qed.

Lemma sequencer_all_healthy_witness :
  (startOrderServers ego_two_ready ctx3 [] world0).1 = (None, false)
  /\ events (startOrderServers ego_two_ready ctx3 [] world0).2
     = [EvPrepare "one"; EvInit "one"; EvHealth "one" false; EvHealth "one" true;
        EvPrepare "two"; EvInit "two"; EvHealth "two" true].
Proof.
  destruct (sequencer_all_healthy ego_two_ready ctx3 [] world0) as [H _].
  - reflexivity.
  - repeat constructor.
  - rewrite H. split; reflexivity.
Defined.

(** X2: with no job, when the entries before [s] become healthy and [s] does
    not, the sequencer returns the error built from the name of [s] with the
    stop request set.  The entry [s] itself was prepared, initialised and
    submitted, and probed once in every round, all refused; its run unit stays
    submitted.  Of the entries behind it nothing is called and no unit is
    submitted. *)
Theorem sequencer_stops_at_unhealthy
  (e : Ego) (ctx : context_Context) (sched : Schedule) (w : World)
  (pre : list OrderServer) (s : OrderServer) (post : list OrderServer) :
  jobs e = [] ->
  orderServers e = pre ++ s :: post ->
  Forall (fun x => healthy ctx x = true) pre ->
  healthy ctx s = false ->
  startOrderServers e ctx sched w
  = ((Some (fmt_Errorf ("start order server fail,err:  " +:+ Name s)), true),
     mkWorld
       (events w ++ concat (map (entry_calls ctx) pre)
        ++ EvPrepare (Name s) :: EvInit (Name s)
           :: replicate (retry_rounds ctx) (EvHealth (Name s) false))
       (cycle w ++ map (order_unit e) pre ++ [order_unit e s])).
Proof.
  intros Hjobs Hsplit Hpre Hs.
  rewrite startOrderServers_no_jobs by done. rewrite Hsplit.
  destruct (started_until_unhealthy ctx pre s post Hpre Hs) as [-> ->].
  rewrite !map_app, concat_app. simpl. rewrite app_nil_r.
  unfold entry_calls at 2. by rewrite (probes_not_ready _ _ _ Hs).
Qed.

Lemma sequencer_stops_at_unhealthy_witness :
  (startOrderServers ego_second_fails ctx3 [] world0).1
  = (Some (errorString "start order server fail,err:  two"), true)
  /\ events (startOrderServers ego_second_fails ctx3 [] world0).2
     = [EvPrepare "one"; EvInit "one"; EvHealth "one" true;
        EvPrepare "two"; EvInit "two"; EvHealth "two" false; EvHealth "two" false;
        EvHealth "two" false]
  /\ length (cycle (startOrderServers ego_second_fails ctx3 [] world0).2) = 2%nat.
Proof.
  rewrite (sequencer_stops_at_unhealthy ego_second_fails ctx3 [] world0
             [ready_after "one" 0] (never_ready "two") [ready_after "three" 0]).
  - repeat split; reflexivity.
  - reflexivity.
  - reflexivity.
  - repeat constructor.
  - reflexivity.
Defined.

(** X3: with no job, the run unit at position [n + 1] among those the
    sequencer submits is the one of the ordered server at position [n + 1],
    and it is there only when the server at position [n] became healthy. *)
Theorem sequencer_next_after_healthy
  (e : Ego) (ctx : context_Context) (sched : Schedule) (w : World)
  (n : nat) (task : Task) :
  jobs e = [] ->
  submitted (startOrderServers e ctx sched) w !! S n = Some task ->
  exists s s' : OrderServer,
    orderServers e !! n = Some s /\ healthy ctx s = true
    /\ orderServers e !! S n = Some s' /\ task = order_unit e s'.
Proof.
  intros Hjobs H. unfold submitted in H.
  rewrite startOrderServers_no_jobs in H by done. simpl in H.
  rewrite drop_app_length, list_lookup_fmap in H.
  destruct (started ctx (orderServers e) !! S n) as [s'|] eqn:E; [|done].
  injection H as <-.
  destruct (started_after_healthy ctx _ _ _ E) as (s & ? & ? & ?).
  by exists s, s'.
Qed.

Lemma sequencer_next_after_healthy_witness :
  exists s s' : OrderServer,
    orderServers ego_second_fails !! 0%nat = Some s /\ healthy ctx3 s = true
    /\ orderServers ego_second_fails !! 1%nat = Some s'
    /\ order_unit ego_second_fails (never_ready "two") = order_unit ego_second_fails s'.
Proof.
  apply (sequencer_next_after_healthy ego_second_fails ctx3 [] world0 0).
  - reflexivity.
  - reflexivity.
Defined.

(** X4: with no job, when the first entry that does not become healthy has a
    name without a percent sign, the text of the error is the fixed prefix
    followed by that name. *)
Theorem sequencer_error_names_entry
  (e : Ego) (ctx : context_Context) (sched : Schedule) (w : World)
  (pre : list OrderServer) (s : OrderServer) (post : list OrderServer) :
  jobs e = [] ->
  orderServers e = pre ++ s :: post ->
  Forall (fun x => healthy ctx x = true) pre ->
  healthy ctx s = false ->
  has_byte "%" (Name s) = false ->
  (startOrderServers e ctx sched w).1
  = (Some (errorString ("start order server fail,err:  " +:+ Name s)), true).
Proof.
  intros Hjobs Hsplit Hpre Hs Hname.
  rewrite startOrderServers_no_jobs by done. rewrite Hsplit. simpl.
  destruct (started_until_unhealthy ctx pre s post Hpre Hs) as [_ ->].
  by rewrite order_error_plain_name.
Qed.

Lemma sequencer_error_names_entry_witness :
  (startOrderServers ego_second_fails ctx3 [] world0).1
  = (Some (errorString ("start order server fail,err:  " +:+ "two")), true).
Proof.
  apply (sequencer_error_names_entry ego_second_fails ctx3 [] world0
           [ready_after "one" 0] (never_ready "two") [ready_after "three" 0]).
  - reflexivity.
  - reflexivity.
  - repeat constructor.
  - reflexivity.
  - reflexivity.
Defined.

(** X5: the health loop probes at most once in every round the retry policy
    grants and touches nothing but the trace.  It answers ready exactly when
    its last probe did, all probes before having been refused; otherwise
    every round was used and refused.  With no round granted it reports the
    server as not ready without probing it. *)
Theorem poll_health_bounded (rounds k : nat) (s : OrderServer) (w : World) :
  exists p,
    (poll_health rounds k s w).2 = mkWorld (events w ++ p) (cycle w)
    /\ (length p <= rounds)%nat
    /\ ((poll_health rounds k s w).1 = true ->
        exists refused,
          p = refused ++ [EvHealth (Name s) true]
          /\ Forall (fun ev => ev = EvHealth (Name s) false) refused)
    /\ ((poll_health rounds k s w).1 = false ->
        p = replicate rounds (EvHealth (Name s) false))
    /\ (rounds = O -> poll_health rounds k s w = (false, w)).
Proof.
  exists (probes rounds k s). rewrite poll_health_spec. simpl.
  split; [done|]. split; [apply probes_length|].
  split; [apply probes_ready|]. split; [apply probes_not_ready|].
  intros ->. simpl. rewrite app_nil_r. by destruct w.
Qed.

(** ** Run units *)

(** X6: [startServers] and [startReloadServers] call nothing themselves and
    return nil: all they do is hand one run unit for each server to the
    supervisor group, in the order of the list and behind the units already
    there; every such unit starts with the [Init] of its server. *)
Theorem start_servers_only_submit (e : Ego) (w : World) :
  startServers e w
  = (None, mkWorld (events w) (cycle w ++ map (server_unit e) (servers e)))
  /\ startReloadServers e w
     = (None, mkWorld (events w)
                (cycle w ++ map (fun s : ReloadServer => server_unit e s) (reloadServers e)))
  /\ forall (s : Server) tr,
       exists rest, (server_unit e s tr).2 = tr ++ EvInit (Name s) :: rest.
Proof.
  split; [|split].
  - unfold startServers, bind. by rewrite startServers_loop_spec.
  - unfold startReloadServers, bind. by rewrite startReloadServers_loop_spec.
  - intros s tr. unfold server_unit, registered_run.
    destruct (RegisterService (registerer e) (Info s)); simpl; eexists;
      rewrite <- !app_assoc; simpl; reflexivity.
Qed.

(** X7: the entry that a run unit logs when it stops carries the error of the
    registration, not that of [Start]: the deferred log call took its
    operands before [Start] ran.  So when the registration succeeded the entry
    shows no error, whatever [Start] returned. *)
Theorem stop_entry_shows_registration_error
  (e : Ego) (start_msg stop_msg : string) (s : Server) (tr : Trace) :
  exists before,
    registered_run e start_msg stop_msg s tr
    = (Start s,
       tr ++ before
       ++ [EvStart (Name s) (Start s);
           logger_Info stop_msg
             [FieldComponent (PackageName s); FieldComponentName (Name s);
              FieldErr (RegisterService (registerer e) (Info s));
              FieldAddr (Label (Info s))];
           EvUnregister (Info s)])
    /\ Forall (fun ev => is_start_or_unregister ev = false) before.
Proof.
  unfold registered_run.
  destruct (RegisterService (registerer e) (Info s)) as [err|].
  - eexists [_; _; _]. split.
    + rewrite <- !app_assoc. simpl. reflexivity.
    + repeat constructor.
  - eexists [_; _]. split.
    + rewrite <- !app_assoc. simpl. reflexivity.
    + repeat constructor.
Qed.

(** A server whose [Start] fails under a registry that works: the stop entry
    shows no error. *)
Example stop_entry_hides_start_error :
  (server_unit ego_start_fails http_server []).2
  = [EvInit "http"; EvRegister {| Label := "http" |} None;
     logger_Info "start server"
       [FieldComponent "server.egin"; FieldComponentName "http"; FieldAddr "http"];
     EvStart "http" (Returns (Some (errorString "listen failed")));
     logger_Info "stop server"
       [FieldComponent "server.egin"; FieldComponentName "http"; FieldErr None;
        FieldAddr "http"];
     EvUnregister {| Label := "http" |}].
Proof. reflexivity. Qed.

(** ** startCrons *)

Lemma startCrons_loop_spec : forall l w,
  startCrons_loop l w = (tt, mkWorld (events w) (cycle w ++ map cron_unit l)).
Proof.
  induction l as [|c l IH]; intros w; simpl.
  - unfold ret. rewrite app_nil_r. by destruct w.
  - unfold bind, cycle_Run. simpl. rewrite IH. simpl. by rewrite <- app_assoc.
Qed.

(** X8: [startCrons] returns nil and calls nothing itself; it submits one run
    unit for each cron, in the order of the list.  The unit of a cron calls
    its [Start] and nothing else: a cron is not initialised by the unit and
    is never registered with the registry nor unregistered. *)
Theorem startCrons_only_start (crons : list Cron) (w : World) :
  startCrons crons w = (None, mkWorld (events w) (cycle w ++ map cron_unit crons))
  /\ forall task,
       task ∈ submitted (startCrons crons) w ->
       exists c, c ∈ crons
         /\ forall tr, task tr = (cron_Start c, tr ++ [EvStart (cron_Name c) (cron_Start c)]).
Proof.
  assert (startCrons crons w
          = (None, mkWorld (events w) (cycle w ++ map cron_unit crons))) as Heq.
  { unfold startCrons, bind. by rewrite startCrons_loop_spec. }
  split; [exact Heq|].
  intros task H. unfold submitted in H. rewrite Heq in H. simpl in H.
  rewrite drop_app_length in H.
  apply list_elem_of_fmap in H as (c & -> & Hc). by exists c.
Qed.

(** ** The job runner, whatever the schedule *)

Lemma first_error_in (l : list (option error)) (err : error) :
  first_error l = Some err -> Some err ∈ l.
Proof.
  induction l as [|[x|] l IH]; simpl; [done| |].
  - intros [= ->]. left.
  - intros H. right. by apply IH.
Qed.

Lemma first_error_none (l : list (option error)) :
  first_error l = None <-> Forall (fun x => x = None) l.
Proof.
  induction l as [|[x|] l IH]; simpl.
  - split; [constructor|done].
  - split; [done|]. by inversion 1.
  - rewrite IH. split; [by constructor|]. by inversion 1.
Qed.

(** X9: whatever the order in which the jobs return, [startJobs] returns nil
    exactly when every job returns nil, and an error it returns is the error
    of one of the configured jobs; when all jobs that fail return the same
    error, that error is the result under every schedule. *)
Theorem startJobs_result_of_some_job (e : Ego) (sched : Schedule) (w : World) :
  ((startJobs e sched w).1 = None
   <-> Forall (fun j => job_Start j = None) (jobs e))
  /\ (forall err, (startJobs e sched w).1 = Some err ->
        exists j, j ∈ jobs e /\ job_Start j = Some err)
  /\ (forall err,
        Exists (fun j => job_Start j = Some err) (jobs e) ->
        Forall (fun j => job_Start j = None \/ job_Start j = Some err) (jobs e) ->
        (startJobs e sched w).1 = Some err).
Proof.
  destruct (startJobs_spec e sched w) as (fin & Hperm & ->). simpl.
  split; [|split].
  - rewrite first_error_none, Forall_fmap, <- Hperm. done.
  - intros err H. apply first_error_in in H.
    apply list_elem_of_fmap in H as (j & Hj & Hin).
    exists j. split; [by rewrite <- Hperm|done].
  - intros err Hex Hall. rewrite <- Hperm in Hex, Hall.
    destruct (first_error (map job_Start fin)) as [err'|] eqn:E.
    + apply first_error_in in E.
      apply list_elem_of_fmap in E as (j & Hj & Hin).
      rewrite Forall_forall in Hall. destruct (Hall j Hin) as [H|H]; congruence.
    + apply first_error_none in E. rewrite Forall_fmap in E.
      apply Exists_exists in Hex as (j & Hin & Hj).
      rewrite Forall_forall in E. specialize (E j Hin). simpl in E. congruence.
Qed.

(** X10: the order in which the jobs are listed does not matter: what
    [startJobs] does for one listing under some schedule, it does for any
    other listing of the same jobs under a schedule of its own. *)
Theorem startJobs_listing_irrelevant (e e' : Ego) (sched : Schedule) (w : World) :
  jobs e' ≡ₚ jobs e ->
  exists sched', startJobs e' sched' w = startJobs e sched w.
Proof.
  intros Hperm.
  destruct (startJobs_spec e sched w) as (fin & Hfin & ->).
  destruct (jobs e') as [|j' js'] eqn:E'.
  - apply Permutation_nil_l in Hperm. exists [].
    unfold startJobs. rewrite E'. simpl.
    rewrite <- Hperm in Hfin. apply Permutation_nil_r in Hfin as ->.
    simpl. rewrite app_nil_r. by destruct w.
  - assert (fin ≡ₚ jobs e') as Hfin' by (by rewrite E', Hperm).
    destruct (errgroup_any_order fin (jobs e') None (events w) Hfin') as [sched' Hs].
    exists sched'. unfold startJobs.
    assert ((length (jobs e') =? 0)%nat = false) as -> by (by rewrite E').
    rewrite errgroup_Go_all. simpl. unfold errgroup_Wait. simpl.
    by rewrite length_map, Hs.
Qed.

Lemma startJobs_listing_irrelevant_witness :
  exists sched', startJobs ego_jobs_swapped sched' world0 = startJobs ego_jobs_only [] world0.
Proof.
  apply (startJobs_listing_irrelevant ego_jobs_only ego_jobs_swapped [] world0).
  apply Permutation_swap.
Defined.

(** ** The hook runners, composed and compared *)

Section MoreHookFacts.

Context {St : Type}.
Implicit Types (fns : list (@Hook St)) (st : St).

Lemma returnError_none_iff : forall fns st,
  (runSerialFuncReturnError fns st).1 = None <-> failures fns st = [].
Proof.
  induction fns as [|fn fns IH]; intros st; simpl; [done|].
  destruct (fn st) as [[err|] st'] eqn:E; simpl.
  - split; done.
  - apply IH.
Qed.

Lemma returnError_none_state : forall fns st,
  (runSerialFuncReturnError fns st).1 = None ->
  (runSerialFuncReturnError fns st).2 = run_all fns st.
Proof.
  induction fns as [|fn fns IH]; intros st; simpl; [done|].
  destruct (fn st) as [[err|] st'] eqn:E; simpl; [done|]. apply IH.
Qed.

End MoreHookFacts.

(** X11: both runners go through a list that is made of two parts by going
    through the first part and then, from the state that left, through the
    second; the before-stop runner does not enter the second part when the
    first returned an error. *)
Theorem hook_runners_compose {St : Type}
  (l1 l2 : list (@Hook St)) (st : St) (log : list LogEntry) :
  runSerialFuncReturnError (l1 ++ l2) st
  = match runSerialFuncReturnError l1 st with
    | (Some err, st') => (Some err, st')
    | (None, st') => runSerialFuncReturnError l2 st'
    end
  /\ runSerialFuncLogError (l1 ++ l2) st log
     = (let '(st', log') := runSerialFuncLogError l1 st log in
        runSerialFuncLogError l2 st' log').
Proof.
  split.
  - revert st. induction l1 as [|fn l1 IH]; intros st; simpl; [done|].
    destruct (fn st) as [[err|] st']; simpl; [done|]. apply IH.
  - revert st log. induction l1 as [|fn l1 IH]; intros st log; simpl; [done|].
    destruct (fn st) as [err st']. apply IH.
Qed.

(** X12: on the same hooks and state the two runners agree as long as no hook
    fails: the before-stop runner returns nil exactly when the after-stop
    runner adds nothing to the log, and then both leave the same state. *)
Theorem hook_runners_agree {St : Type}
  (fns : list (@Hook St)) (st : St) (log : list LogEntry) :
  ((runSerialFuncReturnError fns st).1 = None
   <-> (runSerialFuncLogError fns st log).2 = log)
  /\ ((runSerialFuncReturnError fns st).1 = None ->
      (runSerialFuncReturnError fns st).2 = (runSerialFuncLogError fns st log).1).
Proof.
  rewrite runSerialFuncLogError_spec. simpl. split.
  - rewrite returnError_none_iff. split.
    + intros ->. by rewrite app_nil_r.
    + intros H. apply (app_inv_head log). by rewrite app_nil_r.
  - apply returnError_none_state.
Qed.

(** X13: on hooks that note their numbers, the before-stop runner has called
    the hooks up to the first that fails and none behind it, and returns the
    error of that one; the after-stop runner has called every hook, in the
    order of the list, and has written one entry for each that fails. *)
Theorem hook_runners_calls
  (specs : list (nat * option error)) (calls : list nat) (log : list LogEntry) :
  runSerialFuncReturnError (noting_all specs) calls
  = (first_error (map snd specs), calls ++ map fst (up_to_failure specs))
  /\ (runSerialFuncLogError (noting_all specs) calls log).1 = calls ++ map fst specs
  /\ length (runSerialFuncLogError (noting_all specs) calls log).2
     = (length log + length (omap snd specs))%nat.
Proof.
  split; [|split].
  - revert calls. induction specs as [|[id [err|]] specs IH]; intros calls; simpl.
    + by rewrite app_nil_r.
    + done.
    + unfold noting_all in IH. rewrite IH. by rewrite <- app_assoc.
  - revert calls log. induction specs as [|[id res] specs IH]; intros calls log; simpl.
    + by rewrite app_nil_r.
    + unfold noting_all in IH. rewrite IH. by rewrite <- app_assoc.
  - revert calls log. induction specs as [|[id [err|]] specs IH]; intros calls log; simpl.
    + lia.
    + unfold noting_all in IH. rewrite IH, length_app. simpl. unfold omap. lia.
    + unfold noting_all in IH. by rewrite IH.
Qed.

(** ** forkChild: failure, return and what is left behind *)

Section MoreForkFacts.

Variable e : Ego.
Variable cmd_Start : exec_Cmd -> Z + error.

(** Whatever its result, the extraction loop leaves the arguments, the
    environment and the commands alone. *)
Lemma extract_keeps : forall l acc os r os',
  extract l acc os = (r, os') ->
  os_Args os' = os_Args os /\ os_Environ os' = os_Environ os
  /\ started_cmds os' = started_cmds os.
Proof.
  induction l as [|ln l IH]; intros [[fnames files] lc] os r os' H; simpl in H.
  - unfold pret in H. by injection H as <- <-.
  - destruct (Listener ln) as [[f|err]|].
    + unfold pbind, EgoLogger_Info in H. simpl in H.
      apply IH in H as (? & ? & ?). done.
    + unfold EgoLogger_Panic in H. by injection H as <- <-.
    + unfold EgoLogger_Panic in H. by injection H as <- <-.
Qed.

Lemma extract_panics : forall l acc os,
  Exists (fun ln => has_file ln = false) l ->
  exists msg os',
    extract l acc os = (Panicked msg, os')
    /\ (msg = "listener is not tcp listener" \/ msg = "get listener file failed").
Proof.
  induction l as [|ln l IH]; intros [[fnames files] lc] os H; [by inversion H|].
  simpl. unfold has_file, listener_file in H.
  destruct (Listener ln) as [[f|err]|] eqn:Hl.
  - inversion H as [? ? Hbad|? ? Hex]; subst.
    { rewrite Hl in Hbad. done. }
    unfold pbind, EgoLogger_Info. simpl.
    destruct (IH (fnames ++ [file_Name f], files ++ [f], lc + 1)
                (mkOS (os_Args os) (os_Environ os)
                   (ego_log os ++ [mkLog InfoLevel "set ExtraFiles"
                      [FieldComponent "app"; FieldAny "ExtraFiles" (file_Name f)]])
                   (started_cmds os)) Hex) as (msg & os' & -> & Hmsg).
    by exists msg, os'.
  - unfold EgoLogger_Panic. eexists _, _. split; [done|]. by right.
  - unfold EgoLogger_Panic. eexists _, _. split; [done|]. by left.
Qed.

Lemma Forall2_listener_files (l : list ReloadServer) (new : list os_File) :
  Forall2 (fun (ln : ReloadServer) f => Listener ln = TCPListener (inl f)) l new ->
  omap listener_file l = new /\ Forall (fun ln => has_file ln = true) l.
Proof.
  induction 1 as [|ln f l new Hf Hall [IH1 IH2]]; [done|].
  split.
  - simpl. unfold listener_file at 1. rewrite Hf. simpl. by rewrite <- IH1.
  - constructor; [|done]. unfold has_file, listener_file. by rewrite Hf.
Qed.

Lemma listener_files_Forall2 (l : list ReloadServer) :
  Forall (fun ln => has_file ln = true) l ->
  Forall2 (fun (ln : ReloadServer) f => Listener ln = TCPListener (inl f)) l
    (omap listener_file l).
Proof.
  induction 1 as [|ln l Hf Hall IH]; [constructor|].
  unfold has_file in Hf. destruct (listener_file ln) as [f|] eqn:E; [|done].
  simpl. rewrite E. constructor; [|done].
  unfold listener_file in E. destruct (Listener ln) as [[f'|err]|]; congruence.
Qed.

(** All that a call of [forkChild] that returns has done. *)
Lemma forkChild_inv os r os' :
  forkChild e cmd_Start os = (Ok r, os') ->
  exists path rest cmd,
    os_Args os = path :: rest
    /\ Forall (fun ln => has_file ln = true) (reloadServers e)
    /\ has_byte zero (strings_Join (listener_names (reloadServers e)) ":") = false
    /\ os_Args os' = os_Args os
    /\ os_Environ os'
       = <["FORK_CHILD" := "1"]>
           (<["LISTEN_FDNAMES" := strings_Join (listener_names (reloadServers e)) ":"]>
              (<["LISTEN_FDS" := pretty (Z.of_nat (length (reloadServers e)))]>
                 (os_Environ os)))
    /\ started_cmds os' = started_cmds os ++ [cmd]
    /\ cmd = {| cmd_Args := path :: child_args (os_Args os);
                cmd_ExtraFiles := omap listener_file (reloadServers e);
                cmd_Env := os_Environ os' |}
    /\ r = match cmd_Start cmd with
           | inl pid => (pid, None)
           | inr err => (0, Some err)
           end.
Proof.
  unfold forkChild. destruct (os_Args os) as [|path rest] eqn:Hargs; [done|].
  unfold pbind at 1.
  destruct (extract (reloadServers e) ([], [], 0) os) as [[[[fnames files] lc]|msg] os1]
    eqn:Hx; [|done].
  apply extract_spec in Hx as (new & Hall & -> & -> & -> & Ha & He & Hl).
  apply Forall2_listener_files in Hall as [Hfiles Hhas].
  unfold listener_names. rewrite Hfiles.
  simpl. unfold pbind, setenv_or_panic, os_Setenv. simpl. rewrite !Z.add_0_l.
  destruct (has_byte zero (pretty (Z.of_nat (length (reloadServers e))))); [done|].
  simpl.
  destruct (has_byte zero (strings_Join (map file_Name new) ":")) eqn:Hnul; [done|].
  simpl. intros H.
  rewrite Ha, He, Hl, Hargs in H. unfold exec_Command in H.
  set (cmd := {| cmd_Args := path :: child_args (path :: rest);
                 cmd_ExtraFiles := new;
                 cmd_Env := <["FORK_CHILD" := "1"]>
                   (<["LISTEN_FDNAMES" := strings_Join (map file_Name new) ":"]>
                      (<["LISTEN_FDS" := pretty (Z.of_nat (length (reloadServers e)))]>
                         (os_Environ os))) |}) in *.
  exists path, rest, cmd.
  split; [done|]. split; [done|]. split; [done|].
  destruct (cmd_Start cmd) eqn:Hs; injection H as <- <-; simpl; repeat split; done.
Qed.

End MoreForkFacts.

(** X14: when the listener of some reload server is not a TCP listener, or
    does not give its file, [forkChild] panics and nothing is handed over in
    part: the environment is as it was and no command was started. *)
Theorem forkChild_bad_listener_panics
  (e : Ego) (cmd_Start : exec_Cmd -> Z + error) (os : OS) :
  Exists (fun ln => has_file ln = false) (reloadServers e) ->
  exists msg os',
    forkChild e cmd_Start os = (Panicked msg, os')
    /\ os_Environ os' = os_Environ os
    /\ started_cmds os' = started_cmds os
    /\ (os_Args os <> [] ->
        msg = "listener is not tcp listener" \/ msg = "get listener file failed").
Proof.
  intros Hbad. unfold forkChild.
  destruct (os_Args os) as [|path rest] eqn:Hargs.
  - eexists _, _. split; [done|]. repeat split; done.
  - unfold pbind at 1.
    destruct (extract_panics (reloadServers e) ([], [], 0) os Hbad)
      as (msg & os' & Hx & Hmsg).
    rewrite Hx. exists msg, os'. split; [done|].
    apply extract_keeps in Hx as (_ & He & Hc). done.
Qed.

Lemma forkChild_bad_listener_panics_witness :
  exists msg os',
    forkChild ego_bad_listener start_ok (os_with_env ["ego"]) = (Panicked msg, os')
    /\ os_Environ os' = os_Environ (os_with_env ["ego"])
    /\ started_cmds os' = []
    /\ (os_Args (os_with_env ["ego"]) <> [] ->
        msg = "listener is not tcp listener" \/ msg = "get listener file failed").
Proof.
  apply (forkChild_bad_listener_panics ego_bad_listener start_ok (os_with_env ["ego"])).
  right. left. reflexivity.
Defined.

(** X15: [forkChild] returns, rather than panics, exactly when the process
    has its path among its arguments, the listener of every reload server
    gives its file, and the joined names of these files hold no NUL byte. *)
Theorem forkChild_returns_iff
  (e : Ego) (cmd_Start : exec_Cmd -> Z + error) (os : OS) :
  (exists r os', forkChild e cmd_Start os = (Ok r, os'))
  <-> os_Args os <> []
      /\ Forall (fun ln => has_file ln = true) (reloadServers e)
      /\ has_byte zero (strings_Join (listener_names (reloadServers e)) ":") = false.
Proof.
  split.
  - intros (r & os' & H).
    apply forkChild_inv in H as (path & rest & cmd & Ha & Hf & Hn & _).
    rewrite Ha. done.
  - intros (Ha & Hf & Hn).
    destruct (os_Args os) as [|path rest] eqn:Hargs; [done|].
    apply (forkChild_returns e cmd_Start os path rest
             (omap listener_file (reloadServers e))); [done| |done].
    by apply listener_files_Forall2.
Qed.

(** X16: when [forkChild] returns, its result is that of [cmd.Start] on the
    one command it built: the process id and nil, or 0 and the error.  A
    failed start is not undone: the three variables stay set in the
    environment of the parent. *)
Theorem forkChild_result_is_start
  (e : Ego) (cmd_Start : exec_Cmd -> Z + error) (os : OS) r (os' : OS) :
  forkChild e cmd_Start os = (Ok r, os') ->
  exists cmd,
    started_cmds os' = started_cmds os ++ [cmd]
    /\ r = match cmd_Start cmd with
           | inl pid => (pid, None)
           | inr err => (0, Some err)
           end
    /\ os_Environ os' !! "FORK_CHILD" = Some "1"
    /\ os_Environ os' !! "LISTEN_FDS"
       = Some (pretty (Z.of_nat (length (reloadServers e))))
    /\ os_Environ os' !! "LISTEN_FDNAMES"
       = Some (strings_Join (listener_names (reloadServers e)) ":").
Proof.
  intros H.
  apply forkChild_inv in H as (path & rest & cmd & _ & _ & _ & _ & He & Hc & _ & Hr).
  exists cmd. rewrite He. repeat split; try done.
  - apply lookup_insert_eq.
  - rewrite !lookup_insert_ne by done. apply lookup_insert_eq.
  - rewrite lookup_insert_ne by done. apply lookup_insert_eq.
Qed.

Lemma forkChild_result_is_start_witness :
  exists cmd,
    started_cmds (forkChild ego_reload start_fails (os_with_env ["ego"])).2 = [] ++ [cmd]
    /\ (0, Some (errorString "fork/exec: no such file"))
       = match start_fails cmd with
         | inl pid => (pid, None)
         | inr err => (0, Some err)
         end
    /\ os_Environ (forkChild ego_reload start_fails (os_with_env ["ego"])).2
         !! "FORK_CHILD" = Some "1"
    /\ os_Environ (forkChild ego_reload start_fails (os_with_env ["ego"])).2
         !! "LISTEN_FDS" = Some (pretty (Z.of_nat (length (reloadServers ego_reload))))
    /\ os_Environ (forkChild ego_reload start_fails (os_with_env ["ego"])).2
         !! "LISTEN_FDNAMES"
       = Some (strings_Join (listener_names (reloadServers ego_reload)) ":").
Proof.
  apply (forkChild_result_is_start ego_reload start_fails (os_with_env ["ego"])
           (0, Some (errorString "fork/exec: no such file"))).
  vm_compute. reflexivity.
Defined.

(** X17: when [forkChild] returns, it has changed no variable of the
    environment but [LISTEN_FDS], [LISTEN_FDNAMES] and [FORK_CHILD], whose
    earlier values are overwritten, and the child is given the whole
    environment as it then is; the arguments of the process are as before. *)
Theorem forkChild_keeps_other_variables
  (e : Ego) (cmd_Start : exec_Cmd -> Z + error) (os : OS) r (os' : OS) :
  forkChild e cmd_Start os = (Ok r, os') ->
  (forall key,
     key <> "LISTEN_FDS" -> key <> "LISTEN_FDNAMES" -> key <> "FORK_CHILD" ->
     os_Environ os' !! key = os_Environ os !! key)
  /\ os_Args os' = os_Args os
  /\ exists cmd, last (started_cmds os') = Some cmd /\ cmd_Env cmd = os_Environ os'.
Proof.
  intros H.
  apply forkChild_inv in H as (path & rest & cmd & _ & _ & _ & Ha & He & Hc & Hcmd & _).
  split; [|split; [done|]].
  - intros key H1 H2 H3. rewrite He. by rewrite !lookup_insert_ne.
  - exists cmd. rewrite Hc, last_snoc. split; [done|]. by rewrite Hcmd.
Qed.

Lemma forkChild_keeps_other_variables_witness :
  os_Environ (forkChild ego_reload start_ok (os_with_env ["ego"])).2 !! "HOME"
  = Some "/root"
  /\ os_Environ (forkChild ego_reload start_ok (os_with_env ["ego"])).2 !! "LISTEN_FDS"
     = Some "2".
Proof.
  destruct (forkChild_keeps_other_variables ego_reload start_ok (os_with_env ["ego"])
              (4242, None) (forkChild ego_reload start_ok (os_with_env ["ego"])).2)
    as (H & _).
  - vm_compute. reflexivity.
  - split.
    + rewrite H by done. reflexivity.
    + vm_compute. reflexivity.
Defined.

(** X18: with no reload server, [forkChild] does not panic as long as the
    process has its path among its arguments: it starts a child with no extra
    file, a descriptor count of 0 and an empty list of names. *)
Theorem forkChild_without_reload_servers
  (e : Ego) (cmd_Start : exec_Cmd -> Z + error) (os : OS) :
  reloadServers e = [] -> os_Args os <> [] ->
  exists r os' cmd,
    forkChild e cmd_Start os = (Ok r, os')
    /\ started_cmds os' = started_cmds os ++ [cmd]
    /\ cmd_ExtraFiles cmd = []
    /\ cmd_Env cmd !! "LISTEN_FDS" = Some "0"
    /\ cmd_Env cmd !! "LISTEN_FDNAMES" = Some "".
Proof.
  intros Hnil Hargs.
  destruct (os_Args os) as [|path rest] eqn:Ha; [done|].
  destruct (forkChild_returns e cmd_Start os path rest []) as (r & os' & H);
    [done|rewrite Hnil; constructor|done|].
  exists r, os'. pose proof H as H'.
  apply forkChild_inv in H' as (p & rs & cmd & _ & _ & _ & _ & He & Hc & Hcmd & _).
  exists cmd. rewrite Hnil in *. simpl in *.
  split; [done|]. split; [done|]. rewrite Hcmd. simpl. split; [done|].
  rewrite He. split.
  - rewrite !lookup_insert_ne by done. apply lookup_insert_eq.
  - rewrite lookup_insert_ne by done. apply lookup_insert_eq.
Qed.

Lemma forkChild_without_reload_servers_witness :
  exists r os' cmd,
    forkChild ego_empty start_ok (os_of ["ego"]) = (Ok r, os')
    /\ started_cmds os' = [] ++ [cmd]
    /\ cmd_ExtraFiles cmd = []
    /\ cmd_Env cmd !! "LISTEN_FDS" = Some "0"
    /\ cmd_Env cmd !! "LISTEN_FDNAMES" = Some "".
Proof.
  apply (forkChild_without_reload_servers ego_empty start_ok (os_of ["ego"])).
  - reflexivity.
  - discriminate.
Defined.



(** ** The signal handler: signals, stop information, the channel *)

Section MoreSignalFacts.

Variable ReloadSignal : Signal.
Variable shutdownSignals : list Signal.

Abbreviation step := (waitSignals_step ReloadSignal shutdownSignals).
Abbreviation run := (waitSignals_run ReloadSignal shutdownSignals).

(** The signals delivered so far, against what the outer goroutine holds. *)
Lemma run_signals_seen : forall ls st,
  run ls waitSignals_init = Some st ->
  match handler st with
  | AwaitFirst => sig st = take 2 (delivered ls)
  | AwaitSecond s => exists d, delivered ls = s :: d /\ (sig st <> [] -> d <> [])
  | Exited =>
      exists s s2 d, delivered ls = s :: s2 :: d /\ exit_status st = Some (128 + s)
  end.
Proof.
  induction ls as [|l ls IH] using rev_ind; intros st Hrun.
  - injection Hrun as <-. done.
  - rewrite run_app in Hrun.
    destruct (run ls waitSignals_init) as [st0|] eqn:Hrun0; [|done].
    specialize (IH st0 eq_refl).
    simpl in Hrun. destruct (step l st0) as [st1|] eqn:E; [|done].
    injection Hrun as <-. rewrite delivered_app.
    unfold waitSignals_step in E. destruct (exit_status st0) eqn:Hex; [done|].
    destruct l; simpl.
    + destruct (notifying st0 && bool_decide (s ∈ subscribed ReloadSignal shutdownSignals));
        [|done].
      injection E as <-. simpl. destruct (handler st0) as [|s1|].
      * rewrite IH. destruct (delivered ls) as [|a [|b d]]; simpl; done.
      * destruct IH as (d & -> & _). exists (d ++ [s]). split; [done|].
        intros _. by destruct d.
      * destruct IH as (s0 & s2 & d & _ & ?). congruence.
    + rewrite app_nil_r.
      destruct (handler st0) as [|s1|] eqn:Hh.
      * destruct (sig st0) as [|s q] eqn:Hq; [done|]. injection E as <-. simpl.
        destruct (delivered ls) as [|a d]; [done|].
        exists d. simpl in IH. split; [congruence|].
        intros Hne. destruct d; [|done]. simpl in IH. congruence.
      * destruct (sig st0) as [|s q] eqn:Hq; [done|]. injection E as <-. simpl.
        destruct IH as (d & Hd & Hne). specialize (Hne ltac:(done)).
        destruct d as [|s2 d]; [done|]. by exists s1, s2, d.
      * done.
    + rewrite app_nil_r. destruct (shutdown st0); try done.
      injection E as <-. simpl. done.
    + rewrite app_nil_r. destruct (stopCtx st0); try done.
      injection E as <-. simpl. done.
    + rewrite app_nil_r. destruct (shutdown st0); try done.
      injection E as <-. simpl. done.
    + rewrite app_nil_r. destruct (shutdown st0); try done.
      destruct (stopCtx st0); try done.
      injection E as <-. simpl. done.
Qed.

Lemma info_inv_init : info_inv ReloadSignal waitSignals_init.
Proof.
  unfold info_inv. simpl. repeat split; try done; try lia.
Qed.

Lemma info_inv_step l st st' :
  step l st = Some st' -> sig_inv st -> info_inv ReloadSignal st -> info_inv ReloadSignal st'.
Proof.
  destruct st as [q n h sh c si lg ex]. unfold waitSignals_step, sig_inv, info_inv.
  simpl. destruct ex; [done|].
  intros Hstep (_ & Hfirst & _) (H1 & H2 & H3 & H4 & H5 & H6).
  destruct l; simpl in Hstep;
    repeat match type of Hstep with
           | context [if ?b then _ else _] => destruct b eqn:?
           | context [match ?x with _ => _ end] => destruct x
           end;
    try discriminate Hstep; injection Hstep as <-; simpl in *;
    repeat split; intros; simplify_eq;
    repeat match goal with
           | H : ?x = ?x -> _ |- _ => specialize (H eq_refl)
           | H : is_Some None |- _ => destruct H; discriminate
           | H : (_ <? _)%nat = true |- _ => apply Nat.ltb_lt in H
           end;
    simplify_eq; try done; try lia; try tauto; eauto;
    try (rewrite length_app; simpl; lia);
    try (symmetry; eapply H2; eauto; fail);
    try (eapply H2; eauto; fail).
Qed.

Lemma info_inv_run : forall ls st st',
  run ls st = Some st' -> sig_inv st -> info_inv ReloadSignal st -> info_inv ReloadSignal st'.
Proof.
  induction ls as [|l ls IH]; intros st st' H Hs Hi; simpl in H.
  - by injection H as <-.
  - destruct (step l st) as [st1|] eqn:E; [|done].
    eapply IH; [done| |].
    + by eapply sig_inv_step.
    + by eapply info_inv_step.
Qed.

Lemma reachable_info_inv st :
  reachable ReloadSignal shutdownSignals st -> info_inv ReloadSignal st.
Proof.
  intros [ls H]. eapply info_inv_run; [done|apply sig_inv_init|apply info_inv_init].
Qed.

(** Once written, the stop information stays as it is. *)
Lemma stopInfo_kept : forall ls st st' i,
  sig_inv st -> info_inv ReloadSignal st ->
  run ls st = Some st' -> e_stopInfo st = Some i -> e_stopInfo st' = Some i.
Proof.
  induction ls as [|l ls IH]; intros st st' i Hs Hi Hrun Hinfo; simpl in Hrun.
  - by injection Hrun as <-.
  - destruct (step l st) as [st1|] eqn:E; [|done].
    apply (IH st1 st' i); [by eapply sig_inv_step|by eapply info_inv_step|done|].
    destruct Hi as (_ & _ & _ & Hb & _).
    assert (stop_begun (shutdown st) = true) as Hbegun.
    { apply Hb. by rewrite Hinfo. }
    unfold waitSignals_step in E. destruct (exit_status st); [done|].
    destruct l; simpl in E;
      repeat match type of E with
             | context [if ?b then _ else _] => destruct b
             | context [match ?x with _ => _ end] => destruct x eqn:?
             end;
      try discriminate E; injection E as <-; simpl in *; try done.
Qed.

End MoreSignalFacts.

(** X20: in every run of the handler that ends the process, at least two
    signals had reached it, and the exit status is 128 plus the number of the
    first of them, whichever signals came after it. *)
Theorem exit_needs_two_signals
  (ReloadSignal : Signal) (shutdownSignals : list Signal)
  (ls : list Move) (st : SigState) (status : Z) :
  waitSignals_run ReloadSignal shutdownSignals ls waitSignals_init = Some st ->
  exit_status st = Some status ->
  exists first second others,
    delivered ls = first :: second :: others /\ status = 128 + first.
Proof.
  intros Hrun Hex.
  pose proof (run_signals_seen _ _ _ _ Hrun) as Hseen.
  pose proof (reachable_inv _ _ _ (ex_intro _ ls Hrun)) as ([Hn _] & _).
  destruct (handler st) as [|s|] eqn:Hh.
  - pose proof (run_first_signal _ _ _ _ Hrun) as H. rewrite Hh in H.
    pose proof (reachable_inv _ _ _ (ex_intro _ ls Hrun)) as ([_ Hn'] & _).
    rewrite Hn' in Hex; [done|]. by rewrite Hh.
  - pose proof (run_first_signal _ _ _ _ Hrun) as H. rewrite Hh in H.
    destruct H as [_ H]. congruence.
  - destruct Hseen as (s & s2 & d & Hd & He). exists s, s2, d.
    split; [done|]. congruence.
Qed.

Lemma exit_needs_two_signals_witness :
  exists first second others,
    delivered [Deliver SIGTERM; HandlerRecv; Deliver SIGINT; HandlerRecv]
    = first :: second :: others /\ 143 = 128 + first.
Proof.
  apply (exit_needs_two_signals SIGUSR1 [SIGQUIT; SIGINT; SIGTERM]
           [Deliver SIGTERM; HandlerRecv; Deliver SIGINT; HandlerRecv]
           (mkSig [] true Exited (Spawned true false) NoCtx None
              [mkLog ErrorLevel "waitSignals quit" []] (Some 143))).
  - reflexivity.
  - reflexivity.
Defined.

(** X21: the stop information is written when the shutdown goroutine begins
    and at no other time; while the process runs it is there exactly when
    that goroutine has begun.  It is made from the first signal received:
    graceful unless that signal is SIGQUIT, reload exactly when it is the
    reload signal; and whatever happens afterwards, it stays as written. *)
Theorem stopInfo_from_first_signal
  (ReloadSignal : Signal) (shutdownSignals : list Signal)
  (ls : list Move) (st : SigState) :
  waitSignals_run ReloadSignal shutdownSignals ls waitSignals_init = Some st ->
  (stop_begun (shutdown st) = true <-> is_Some (e_stopInfo st))
  /\ (forall s, handler st = AwaitSecond s ->
        head (delivered ls) = Some s
        /\ (stop_begun (shutdown st) = true ->
            e_stopInfo st = Some (classify ReloadSignal s)))
  /\ (forall i ls' st',
        e_stopInfo st = Some i ->
        waitSignals_run ReloadSignal shutdownSignals ls' st = Some st' ->
        e_stopInfo st' = Some i).
Proof.
  intros Hrun.
  pose proof (reachable_inv _ _ _ (ex_intro _ ls Hrun)) as Hs.
  pose proof (reachable_info_inv _ _ _ (ex_intro _ ls Hrun)) as Hi.
  split; [by destruct Hi as (_ & _ & _ & ? & _)|]. split.
  - intros s Hh.
    pose proof (run_first_signal _ _ _ _ Hrun) as H. rewrite Hh in H.
    split; [by destruct H|].
    destruct Hi as (_ & _ & H3 & H4 & _). intros Hb.
    apply H4 in Hb as [i Hinfo]. rewrite Hinfo. f_equal. by apply H3.
  - intros i ls' st' Hinfo Hrun'. by eapply stopInfo_kept.
Qed.

Lemma stopInfo_from_first_signal_witness :
  e_stopInfo st_stopping = Some (classify SIGUSR1 SIGTERM).
Proof.
  destruct (stopInfo_from_first_signal SIGUSR1 [SIGQUIT; SIGINT; SIGTERM]
              [Deliver SIGTERM; HandlerRecv; ShutdownBegin] st_stopping eq_refl)
    as (_ & H & _).
  destruct (H SIGTERM eq_refl) as [_ H']. apply H'. reflexivity.
Defined.

(** X22: the channel never holds more than two signals: a signal that
    arrives while two are waiting is dropped and leaves no trace. *)
Theorem signal_channel_bounded
  (ReloadSignal : Signal) (shutdownSignals : list Signal) (st : SigState) :
  reachable ReloadSignal shutdownSignals st ->
  (length (sig st) <= 2)%nat
  /\ (forall s st',
        length (sig st) = 2%nat ->
        waitSignals_step ReloadSignal shutdownSignals (Deliver s) st = Some st' ->
        st' = st).
Proof.
  intros Hreach.
  pose proof (reachable_info_inv _ _ _ Hreach) as (_ & _ & _ & _ & Hlen & _).
  split; [done|].
  intros s st' H2 Hstep. unfold waitSignals_step in Hstep.
  destruct (exit_status st) eqn:Hex; [done|].
  destruct (notifying st && _); [|done].
  rewrite H2 in Hstep. simpl in Hstep. injection Hstep as <-.
  destruct st; simpl in *. by subst.
Qed.

Lemma signal_channel_bounded_witness :
  (length (sig st_second) <= 2)%nat.
Proof.
  apply (signal_channel_bounded SIGUSR1 [SIGQUIT; SIGINT; SIGTERM] st_second).
  exists [Deliver SIGTERM; HandlerRecv; ShutdownBegin; Deliver SIGINT; TimerFires].
  reflexivity.
Defined.

(** X23: when the shutdown goroutine has returned and nothing waits in the
    channel, the handler is at rest for good: the registration of the signals
    is removed, so no later signal is relayed to it, and the outer goroutine
    never gets to [os.Exit]. *)
Theorem handler_idle_after_shutdown
  (ReloadSignal : Signal) (shutdownSignals : list Signal) (st : SigState) :
  reachable ReloadSignal shutdownSignals st ->
  shutdown st = Finished -> sig st = [] ->
  notifying st = false
  /\ forall l, waitSignals_step ReloadSignal shutdownSignals l st = None.
Proof.
  intros Hreach Hfin Hq.
  pose proof (reachable_info_inv _ _ _ Hreach) as (_ & _ & _ & _ & _ & Hf).
  destruct (Hf Hfin) as (Hn & err & Hc). split; [done|].
  intros l. unfold waitSignals_step. destruct (exit_status st); [done|].
  destruct l; rewrite ?Hn, ?Hfin, ?Hq, ?Hc; try done.
  by destruct (handler st).
Qed.

Lemma handler_idle_after_shutdown_witness :
  waitSignals_step SIGUSR1 [SIGQUIT; SIGINT; SIGTERM] (Deliver SIGINT)
    (mkSig [] false (AwaitSecond SIGTERM) Finished (CtxDone DeadlineExceeded)
       (Some {| isGracefulStop := true; isReload := false |}) [deadline_entry] None)
  = None
  /\ waitSignals_step SIGUSR1 [SIGQUIT; SIGINT; SIGTERM] HandlerRecv
       (mkSig [] false (AwaitSecond SIGTERM) Finished (CtxDone DeadlineExceeded)
          (Some {| isGracefulStop := true; isReload := false |}) [deadline_entry] None)
     = None.
Proof.
  destruct (handler_idle_after_shutdown SIGUSR1 [SIGQUIT; SIGINT; SIGTERM]
              (mkSig [] false (AwaitSecond SIGTERM) Finished (CtxDone DeadlineExceeded)
                 (Some {| isGracefulStop := true; isReload := false |})
                 [deadline_entry] None)) as [_ H].
  - exists [Deliver SIGTERM; HandlerRecv; ShutdownBegin; StopReturns; TimerFires;
            ShutdownEnd].
    reflexivity.
  - reflexivity.
  - reflexivity.
  - split; apply H.
Defined.

(** X24: nothing cancels the stop context before the inner goroutine has
    waited for it: in every state the handler reaches the context is absent,
    open or expired.  The wait of line 64 therefore ends by the timer only,
    and whenever the goroutine gets past it, it writes the deadline entry. *)
Theorem stop_context_only_expires
  (ReloadSignal : Signal) (shutdownSignals : list Signal) (st : SigState) :
  reachable ReloadSignal shutdownSignals st ->
  stopCtx st <> CtxDone Canceled
  /\ (stopCtx st = CtxOpen ->
      waitSignals_step ReloadSignal shutdownSignals ShutdownEnd st = None)
  /\ (forall st',
        waitSignals_step ReloadSignal shutdownSignals ShutdownEnd st = Some st' ->
        stopCtx st = CtxDone DeadlineExceeded
        /\ logged st' = logged st ++ [deadline_entry]).
Proof.
  intros Hreach.
  pose proof (reachable_inv _ _ _ Hreach) as (_ & _ & _ & _ & Hno & Hctx).
  split; [|split].
  - destruct (shutdown st) eqn:Hsh.
    + rewrite Hno; [done|]. by left.
    + rewrite Hno; [done|]. right. by eexists _, _.
    + destruct Hctx as [->| ->]; [by left|done|done].
    + destruct Hctx as [->| ->]; [right; by left|done|done].
    + destruct Hctx as [->| ->]; [right; by right|done|done].
  - intros Hc. unfold waitSignals_step. destruct (exit_status st); [done|].
    rewrite Hc. by destruct (shutdown st).
  - intros st' Hstep.
    destruct (shutdown_end_always_logs _ _ _ _ Hreach Hstep) as (? & ? & _). done.
Qed.

Lemma stop_context_only_expires_witness :
  stopCtx st_stopped_in_time <> CtxDone Canceled
  /\ waitSignals_step SIGUSR1 [SIGQUIT; SIGINT; SIGTERM] ShutdownEnd st_stopped_in_time
     = None.
Proof.
  destruct (stop_context_only_expires SIGUSR1 [SIGQUIT; SIGINT; SIGTERM]
              st_stopped_in_time) as (H1 & H2 & _).
  - exists [Deliver SIGTERM; HandlerRecv; ShutdownBegin; StopReturns]. reflexivity.
  - split; [exact H1|]. apply H2. reflexivity.
Defined.

(** ** The initialisation *)

Lemma runSerialFuncLogError_app {St : Type} (l1 l2 : list (@Hook St)) :
  forall st log,
    runSerialFuncLogError (l1 ++ l2) st log
    = (let '(st', log') := runSerialFuncLogError l1 st log in
       runSerialFuncLogError l2 st' log').
Proof.
  induction l1 as [|fn l1 IH]; intros st log; simpl; [done|].
  destruct (fn st) as [err st']. apply IH.
Qed.

(** X25: [initLogger] returns nil and leaves the hooks that are registered
    where they are: behind them it adds the [Flush] of the default logger
    when that logger is configured, then the [Flush] of the ego logger when
    that one is, so that at stop the after-stop runner first goes through the
    earlier hooks and then flushes.  A logger is rebuilt exactly when its
    section is there, and the tracer is not touched. *)
Theorem initLogger_adds_flush_hooks {St : Type}
  (DefaultLogger_Flush EgoLogger_Flush : @Hook St) (conf : Econf)
  (configPrefix elog_PackageName : string) (st : InitState St) :
  exists st',
    initLogger DefaultLogger_Flush EgoLogger_Flush conf configPrefix elog_PackageName st
    = (None, st')
    /\ afterStopClean st'
       = afterStopClean st
         ++ (if econf_Get conf (configPrefix +:+ "logger.default")
             then [DefaultLogger_Flush] else [])
         ++ (if econf_Get conf (configPrefix +:+ "logger.ego")
             then [EgoLogger_Flush] else [])
    /\ DefaultLogger st'
       = (if econf_Get conf (configPrefix +:+ "logger.default")
          then Some (configPrefix +:+ "logger.default") else DefaultLogger st)
    /\ EgoLogger st'
       = (if econf_Get conf (configPrefix +:+ "logger.ego")
          then Some (configPrefix +:+ "logger.ego") else EgoLogger st)
    /\ GlobalTracer st' = GlobalTracer st
    /\ forall s log,
         runSerialFuncLogError (afterStopClean st') s log
         = (let '(s1, log1) := runSerialFuncLogError (afterStopClean st) s log in
            runSerialFuncLogError
              ((if econf_Get conf (configPrefix +:+ "logger.default")
                then [DefaultLogger_Flush] else [])
               ++ (if econf_Get conf (configPrefix +:+ "logger.ego")
                   then [EgoLogger_Flush] else [])) s1 log1).
Proof.
  eexists. split; [reflexivity|].
  assert (afterStopClean
            (initLogger DefaultLogger_Flush EgoLogger_Flush conf configPrefix
               elog_PackageName st).2
          = afterStopClean st
            ++ (if econf_Get conf (configPrefix +:+ "logger.default")
                then [DefaultLogger_Flush] else [])
            ++ (if econf_Get conf (configPrefix +:+ "logger.ego")
                then [EgoLogger_Flush] else [])) as Hhooks.
  { unfold initLogger.
    destruct (econf_Get conf (configPrefix +:+ "logger.default"));
      destruct (econf_Get conf (configPrefix +:+ "logger.ego")); simpl;
      rewrite ?app_nil_r, <- ?app_assoc; done. }
  simpl in Hhooks. split; [exact Hhooks|].
  split; [|split; [|split]].
  - unfold initLogger.
    destruct (econf_Get conf (configPrefix +:+ "logger.default"));
      destruct (econf_Get conf (configPrefix +:+ "logger.ego")); done.
  - unfold initLogger.
    destruct (econf_Get conf (configPrefix +:+ "logger.default"));
      destruct (econf_Get conf (configPrefix +:+ "logger.ego")); done.
  - unfold initLogger.
    destruct (econf_Get conf (configPrefix +:+ "logger.default"));
      destruct (econf_Get conf (configPrefix +:+ "logger.ego")); done.
  - intros s log. rewrite Hhooks. apply runSerialFuncLogError_app.
Qed.

(** X26: [initTracer] returns nil.  When [trace.disable] is set it installs
    no tracer and adds no hook, also when a trace section is configured;
    otherwise it sets the global tracer, built from the trace section when
    there is one and from the default configuration when there is none, and
    adds the [Stop] of that configuration behind the hooks already there.
    The tracer is set by the call exactly when the hook is added. *)
Theorem initTracer_disable_wins {St : Type}
  (container_Stop : TraceContainer -> @Hook St) (conf : Econf) (configPrefix : string)
  (st : InitState St) :
  (initTracer container_Stop conf configPrefix st).1 = None
  /\ (econf_GetBool conf (configPrefix +:+ "trace.disable") = true ->
      GlobalTracer (initTracer container_Stop conf configPrefix st).2 = GlobalTracer st
      /\ afterStopClean (initTracer container_Stop conf configPrefix st).2
         = afterStopClean st)
  /\ (econf_GetBool conf (configPrefix +:+ "trace.disable") = false ->
      exists container,
        container = (if econf_Get conf (configPrefix +:+ "trace")
                     then otel_Load (configPrefix +:+ "trace") else otel_DefaultConfig)
        /\ GlobalTracer (initTracer container_Stop conf configPrefix st).2 = Some container
        /\ afterStopClean (initTracer container_Stop conf configPrefix st).2
           = afterStopClean st ++ [container_Stop container])
  /\ DefaultLogger (initTracer container_Stop conf configPrefix st).2 = DefaultLogger st
  /\ EgoLogger (initTracer container_Stop conf configPrefix st).2 = EgoLogger st.
Proof.
  unfold initTracer.
  destruct (econf_GetBool conf (configPrefix +:+ "trace.disable")); simpl.
  - repeat split; done.
  - repeat split; try done. intros _. by eexists.
Qed.

(** Tracing switched off with a trace section configured: nothing is set. *)
Example initTracer_switched_off :
  GlobalTracer (initTracer (St := unit) (fun _ s => (None, s)) conf_trace_off "" init0).2
  = None
  /\ afterStopClean
       (initTracer (St := unit) (fun _ s => (None, s)) conf_trace_off "" init0).2 = [].
Proof. split; reflexivity. Qed.

(** X27: [initMaxProcs] returns nil in every case.  A number of processors
    that is configured, positive and within 32 bits becomes the setting; a
    negative one
    leaves the setting as it was; in both cases the quota of the container is
    not looked at.  Only when the number is 0 is the setting the one that
    [maxprocs.Set] leaves, and an error of that call is logged and no more.
    The last entry reports the setting that results. *)
Theorem initMaxProcs_setting
  (conf : Econf) (maxprocs_Set : Z -> Z * option error) (pid cur : Z)
  (log : list LogEntry) :
  (initMaxProcs conf maxprocs_Set pid cur log).1.1 = None
  /\ (1 <= econf_GetInt conf "ego.maxProc" <= 2147483647 ->
      (initMaxProcs conf maxprocs_Set pid cur log).1.2 = econf_GetInt conf "ego.maxProc")
  /\ (econf_GetInt conf "ego.maxProc" < 0 ->
      (initMaxProcs conf maxprocs_Set pid cur log).1.2 = cur)
  /\ (econf_GetInt conf "ego.maxProc" <> 0 ->
      forall other_Set,
        initMaxProcs conf other_Set pid cur log
        = initMaxProcs conf maxprocs_Set pid cur log)
  /\ (econf_GetInt conf "ego.maxProc" = 0 ->
      (initMaxProcs conf maxprocs_Set pid cur log).1.2 = (maxprocs_Set cur).1)
  /\ exists before,
       (initMaxProcs conf maxprocs_Set pid cur log).2
       = log ++ before
         ++ [mkLog InfoLevel "init app"
               [FieldComponent "app"; FieldAny "pid" (pretty pid);
                FieldAny "coreNum"
                  (pretty (initMaxProcs conf maxprocs_Set pid cur log).1.2)]].
Proof.
  unfold initMaxProcs, runtime_GOMAXPROCS. simpl.
  destruct (Z.eqb_spec (econf_GetInt conf "ego.maxProc") 0) as [Hz|Hz]; simpl.
  - destruct (maxprocs_Set cur) as [set [err|]] eqn:E; simpl;
      (split; [done|]); (split; [lia|]); (split; [lia|]);
      (split; [done|]); (split; [done|]).
    + eexists [_]. by rewrite <- app_assoc.
    + exists []. done.
  - split; [done|]. split; [|split; [|split; [|split]]].
    + intros H. destruct (Z.ltb_spec (econf_GetInt conf "ego.maxProc") 1); [lia|done].
    + intros H. destruct (Z.ltb_spec (econf_GetInt conf "ego.maxProc") 1); [done|lia].
    + done.
    + done.
    + exists []. done.
Qed.

(** A negative number of processors: the setting stays, the quota is not
    asked. *)
Example initMaxProcs_negative :
  (initMaxProcs conf_negative_procs quota_two 77 8 []).1 = (None, 8).
Proof. reflexivity. Qed.


(** The default file is missing: nil, nothing loaded; loading fails: panic. *)
Example loadConfig_cases :
  loadConfig source_missing load_fails "config/local.toml" true (mkConf None [])
  = (Ok None, mkConf None [WarnNoConfig "config/local.toml"])
  /\ (loadConfig source_file load_fails "a.toml" true (mkConf None [])).1
     = Panicked "data source: load config"
  /\ loaded (loadConfig source_file load_ok "a.toml" true (mkConf None [])).2
     = Some {| ds_provider := "a.toml"; ds_parser := "toml"; ds_tag := "mapstructure" |}.
Proof. repeat split; reflexivity. Qed.
